(** * One-to-many incremental MongoDB sync ([up.py])

    A shallow embedding of the two phases of [up.py] -- [incremental_upsert]
    and [reconcile_deletions] -- and of [main], which runs them against each
    destination in turn.

    The store (pymongo) is the environment:
    - a database is a finite map from collection names to collections, a
      collection a finite map from document ids to document bodies; a
      collection can exist and be empty;
    - every call into the store is recorded in a trace and may raise
      [PyMongoError], the only exception of the model; whether it does is
      decided by a fault oracle that sees the whole history of the run;
    - a cursor is read when it is opened: [find] returns the documents of
      that moment, in the order of [map_to_list];
    - the names of a Python [set] are visited in the order of [elements];
    - the source database is never written and is the same during a run.

    The log lines of [up.py] are recorded in the same trace, so that what
    was caught and logged can be told from what was not. *)

From Stdlib Require Import ZArith String.
From stdpp Require Import gmap strings list fin_maps.

Local Open Scope Z_scope.

(** ** Data model *)

(** A document is its [_id] and an opaque body, copied verbatim. *)
Abbreviation Collection := (gmap Z string).
Abbreviation Database := (gmap string (gmap Z string)).

(** [IN_MEMORY_ID_THRESHOLD = 200_000] *)
Definition IN_MEMORY_ID_THRESHOLD : Z := 200000.

(** [coll_name.startswith("system.")] *)
Definition is_system (coll_name : string) : bool :=
  String.prefix "system." coll_name.

(** The collection behind [db[name]]: a collection that does not exist reads
    as an empty one. *)
Definition coll_of (db : Database) (name : string) : gmap Z string :=
  default ∅ (db !! name).

(** What [replace_one({"_id": id}, doc, upsert=True)] does to a database:
    the document with this id is replaced, or inserted; the collection comes
    into being with its first document. *)
Definition replace_doc (coll : string) (doc : Z * string) (d : Database) : Database :=
  <[coll := <[doc.1 := doc.2]> (coll_of d coll)]> d.

(** What [delete_one({"_id": id})] does: the collection stays, even empty. *)
Definition delete_doc (coll : string) (id : Z) (d : Database) : Database :=
  match d !! coll with
  | Some docs => <[coll := delete id docs]> d
  | None => d
  end.

(** ** Store calls, log entries and traces *)

Inductive store_op : Type :=
  | ListSource                                  (* src_db.list_collection_names() *)
  | ListDest                                    (* dst_db.list_collection_names() *)
  | CountSource (coll : string)                 (* src_coll.count_documents({}) *)
  | CountDest (coll : string)                   (* dst_coll.count_documents({}) *)
  | FindSource (coll : string)                  (* src_coll.find({}) *)
  | FindSourceIds (coll : string)               (* src_coll.find({}, {"_id": 1}) *)
  | FindDestIds (coll : string)                 (* dst_coll.find({}, {"_id": 1}) *)
  | ExistsSource (coll : string) (id : Z)       (* src_coll.count_documents({"_id": id}, limit=1) *)
  | ReplaceOne (coll : string) (id : Z) (body : string)
                                                (* dst_coll.replace_one({"_id": id}, doc, upsert=True) *)
  | DeleteOne (coll : string) (id : Z)          (* dst_coll.delete_one({"_id": id}) *)
  | DropCollection (coll : string).             (* dst_db.drop_collection(coll) *)

Inductive log_entry : Type :=
  | StartingUpsert                              (* "Starting incremental upsert ..." *)
  | Processing (coll : string) (src_count : Z)  (* "Processing %s.%s (source_count=%d)" *)
  | Upserted (n : nat) (coll : string)          (* "Upserted %d documents into %s.%s" *)
  | ErrorProcessing (coll : string)             (* "Error processing %s.%s: %s" *)
  | StartingReconciliation                      (* "Starting deletion reconciliation ..." *)
  | Dropping (coll : string)                    (* "Dropping collection in destination: %s.%s" *)
  | FailedDrop (coll : string)                  (* "Failed to drop collection %s.%s: %s" *)
  | CountError (coll : string)                  (* "Count error on %s.%s: %s" *)
  | Reconciling (coll : string) (src_count dst_count : Z)
                                                (* "Reconciling documents for %s.%s (...)" *)
  | Deleted (n : nat) (coll : string)           (* "Deleted %d documents from %s.%s" *)
  | MongoError                                  (* "Mongo error during reconciliation: %s" *)
  | Completed.                                  (* "Incremental live sync completed ..." *)

(** A trace entry: a store call with whether it raised, or a log line. *)
Inductive event : Type :=
  | Call (op : store_op) (raised : bool)
  | Log (entry : log_entry).

(** The collection a store call works on. *)
Definition op_coll (op : store_op) : option string :=
  match op with
  | ListSource | ListDest => None
  | CountSource c | CountDest c | FindSource c | FindSourceIds c
  | FindDestIds c | ExistsSource c _ | ReplaceOne c _ _ | DeleteOne c _
  | DropCollection c => Some c
  end.

(** The store calls that remove data from a destination. *)
Definition is_removal (op : store_op) : bool :=
  match op with
  | DeleteOne _ _ | DropCollection _ => true
  | _ => false
  end.

(** ** The monad: one destination database, the trace, and exceptions *)

Record world : Type := World { dest : Database; trace : list event }.

Inductive outcome (A : Type) : Type :=
  | Done (a : A)
  | Raised.                                     (* a PyMongoError is propagating *)
Arguments Done {A} a.
Arguments Raised {A}.

Definition M (A : Type) : Type := world → outcome A * world.

Definition ret {A} (a : A) : M A := λ w, (Done a, w).

Definition bind {A B} (m : M A) (f : A → M B) : M B :=
  λ w, match m w with
       | (Done a, w') => f a w'
       | (Raised, w') => (Raised, w')
       end.

Declare Scope sync_scope.
Delimit Scope sync_scope with sync.
Notation "x <- m ;; k" := (bind m (λ x, k))
  (at level 100, m at next level, k at level 200, right associativity) : sync_scope.
Notation "m ;; k" := (bind m (λ _, k))
  (at level 100, k at level 200, right associativity) : sync_scope.
Local Open Scope sync_scope.

(** [try: m  except ...: h] *)
Definition try_except {A} (m h : M A) : M A :=
  λ w, match m w with
       | (Done a, w') => (Done a, w')
       | (Raised, w') => h w'
       end.

(** [for x in l: body x] *)
Fixpoint for_each {A} (l : list A) (body : A → M unit) : M unit :=
  match l with
  | [] => ret tt
  | x :: l' => body x ;; for_each l' body
  end.

(** [for x in l: ...] with a local counter ([deleted]) updated by the body *)
Fixpoint for_each_counting {A} (l : list A) (body : A → nat → M nat) (n : nat) : M nat :=
  match l with
  | [] => ret n
  | x :: l' => n' <- body x n ;; for_each_counting l' body n'
  end.

Definition emit (e : event) (w : world) : world :=
  World (dest w) (trace w ++ [e]).

Definition log (entry : log_entry) : M unit :=
  λ w, (Done tt, emit (Log entry) w).

Definition read_dest : M Database := λ w, (Done (dest w), w).

Definition write_dest (f : Database → Database) : M unit :=
  λ w, (Done tt, World (f (dest w)) (trace w)).

(** The oracle that never raises. *)
Definition reliable : list event → store_op → bool := λ _ _, false.

Section Sync.

(** Which store calls raise, given the history so far. *)
Variable faults : list event → store_op → bool.
(** The configured threshold ([IN_MEMORY_ID_THRESHOLD] in [up.py]). *)
Variable threshold : Z.
(** The source database, quiescent during the run. *)
Variable source : Database.

(** A round trip to the store: recorded, and raising when the oracle says so. *)
Definition call (op : store_op) : M unit :=
  λ w, if faults (trace w) op
       then (Raised, emit (Call op true) w)
       else (Done tt, emit (Call op false) w).

(** *** Source accessor (read only) *)

Definition src_list_collection_names : M (list string) :=
  call ListSource ;; ret (elements (dom source)).

Definition src_count_documents (coll : string) : M Z :=
  call (CountSource coll) ;; ret (Z.of_nat (size (coll_of source coll))).

Definition src_find (coll : string) : M (list (Z * string)) :=
  call (FindSource coll) ;; ret (map_to_list (coll_of source coll)).

Definition src_find_ids (coll : string) : M (list Z) :=
  call (FindSourceIds coll) ;; ret ((map_to_list (coll_of source coll)).*1).

Definition src_count_id (coll : string) (id : Z) : M Z :=
  call (ExistsSource coll id) ;;
  ret (if coll_of source coll !! id is Some _ then 1 else 0).

(** *** Destination accessor *)

Definition dst_list_collection_names : M (list string) :=
  call ListDest ;; d <- read_dest ;; ret (elements (dom d)).

Definition dst_count_documents (coll : string) : M Z :=
  call (CountDest coll) ;; d <- read_dest ;; ret (Z.of_nat (size (coll_of d coll))).

Definition dst_find_ids (coll : string) : M (list Z) :=
  call (FindDestIds coll) ;; d <- read_dest ;; ret ((map_to_list (coll_of d coll)).*1).

Definition dst_replace_one (coll : string) (doc : Z * string) : M unit :=
  call (ReplaceOne coll doc.1 doc.2) ;; write_dest (replace_doc coll doc).

Definition dst_delete_one (coll : string) (id : Z) : M unit :=
  call (DeleteOne coll id) ;; write_dest (delete_doc coll id).

Definition dst_drop_collection (coll : string) : M unit :=
  call (DropCollection coll) ;; write_dest (delete coll).

(** *** Step A: incremental upsert *)

(** The branch [src_count <= IN_MEMORY_ID_THRESHOLD]: read the whole source
    collection, then write. *)
Definition upsert_materialize (coll_name : string) : M unit :=
  source_docs <- src_find coll_name ;;
  for_each source_docs (λ doc, dst_replace_one coll_name doc) ;;
  log (Upserted (length source_docs) coll_name).

(** The [else] branch: write each document as the cursor yields it. *)
Definition upsert_stream (coll_name : string) : M unit :=
  cursor <- src_find coll_name ;;
  for_each cursor (λ doc, dst_replace_one coll_name doc).

(** The body of the [for coll_name in ...] loop after the reserved-name
    test: the [try ... except PyMongoError] block. *)
Definition upsert_collection (coll_name : string) : M unit :=
  try_except
    (src_count <- src_count_documents coll_name ;;
     if (src_count =? 0) then ret tt
     else
       log (Processing coll_name src_count) ;;
       if (src_count <=? threshold)
       then upsert_materialize coll_name
       else upsert_stream coll_name)
    (log (ErrorProcessing coll_name)).

Definition incremental_upsert : M unit :=
  log StartingUpsert ;;
  names <- src_list_collection_names ;;
  for_each names (λ coll_name,
    if is_system coll_name then ret tt
    else upsert_collection coll_name).

(** *** Step B: deletion reconciliation *)

(** The branch [src_count <= IN_MEMORY_ID_THRESHOLD]: the source ids as an
    in-memory set, then one pass over the destination ids. *)
Definition reconcile_materialize (coll : string) : M unit :=
  ids <- src_find_ids coll ;;
  let source_ids : gset Z := list_to_set ids in
  cursor <- dst_find_ids coll ;;
  deleted <- for_each_counting cursor (λ id deleted,
               if bool_decide (id ∈ source_ids) then ret deleted
               else dst_delete_one coll id ;; ret (S deleted)) 0%nat ;;
  log (Deleted deleted coll).

(** The fall-through: one existence query on the source per destination id. *)
Definition reconcile_stream (coll : string) : M unit :=
  cursor <- dst_find_ids coll ;;
  deleted <- for_each_counting cursor (λ id deleted,
               n <- src_count_id coll id ;;
               if (n =? 0)
               then dst_delete_one coll id ;; ret (S deleted)
               else ret deleted) 0%nat ;;
  log (Deleted deleted coll).

(** The body of the [for coll in dst_cols.intersection(src_cols)] loop. *)
Definition reconcile_collection (coll : string) : M unit :=
  counts <- try_except
             (src_count <- src_count_documents coll ;;
              dst_count <- dst_count_documents coll ;;
              ret (Some (src_count, dst_count)))
             (log (CountError coll) ;; ret None) ;;
  match counts with
  | None => ret tt                            (* continue *)
  | Some (src_count, dst_count) =>
      log (Reconciling coll src_count dst_count) ;;
      if (src_count <=? threshold)
      then reconcile_materialize coll
      else reconcile_stream coll
  end.

(** The body of the [for coll in dst_cols - src_cols] loop. *)
Definition drop_stale_collection (coll : string) : M unit :=
  try_except
    (log (Dropping coll) ;; dst_drop_collection coll)
    (log (FailedDrop coll)).

Definition reconcile_deletions : M unit :=
  log StartingReconciliation ;;
  try_except
    (src_names <- src_list_collection_names ;;
     dst_names <- dst_list_collection_names ;;
     let src_cols : gset string :=
       list_to_set (filter (λ c, is_system c = false) src_names) in
     let dst_cols : gset string :=
       list_to_set (filter (λ c, is_system c = false) dst_names) in
     for_each (elements (dst_cols ∖ src_cols)) drop_stale_collection ;;
     for_each (elements (dst_cols ∩ src_cols)) reconcile_collection)
    (log MongoError).

(** *** Main *)

(** One iteration of the loop of [main]. *)
Definition sync_destination : M unit :=
  incremental_upsert ;; reconcile_deletions.

(** [for dst_client in dst_clients: ...]: the destinations are separate
    databases, the trace is shared.  An exception that leaves a pass ends
    the run with the later destinations untouched. *)
Fixpoint main_loop (dsts : list Database) (tr : list event)
  : outcome unit * (list Database * list event) :=
  match dsts with
  | [] => (Done tt, ([], tr))
  | d :: rest =>
      match sync_destination (World d tr) with
      | (Done _, w) =>
          let '(o, (rest', tr')) := main_loop rest (trace w) in
          (o, (dest w :: rest', tr'))
      | (Raised, w) => (Raised, (dest w :: rest, trace w))
      end
  end.

Definition main (dsts : list Database) : outcome unit * (list Database * list event) :=
  match main_loop dsts [] with
  | (Done _, (dsts', tr)) => (Done tt, (dsts', tr ++ [Log Completed]))
  | (Raised, r) => (Raised, r)
  end.

End Sync.

(** ** Runs without store errors

    [pure_run m d a d']: started on destination [d], whatever the trace so
    far, [m] returns [a] without raising, leaves the destination as [d'] and
    only adds to the trace. *)

Definition pure_run {A} (m : M A) (d : Database) (a : A) (d' : Database) : Prop :=
  ∀ tr, ∃ evs, m (World d tr) = (Done a, World d' (tr ++ evs)).

(** What the phases compute when no store call raises, as functions on the
    destination database. *)

(** One source collection upserted into the destination. *)
Definition upsert_coll (source : Database) (c : string) (d : Database) : Database :=
  if decide (coll_of source c = ∅) then d
  else <[c := coll_of source c ∪ coll_of d c]> d.

Definition upsert_step (source : Database) (d : Database) (c : string) : Database :=
  if is_system c then d else upsert_coll source c d.

Definition upserted (source d : Database) : Database :=
  foldl (upsert_step source) d (elements (dom source)).

(** One pass of a deletion loop: the ids outside [keep] are deleted. *)
Definition delete_step (keep : gset Z) (c : string) (d : Database) (id : Z) : Database :=
  if bool_decide (id ∈ keep) then d else delete_doc c id d.

(** One collection pair reconciled. *)
Definition reconcile_coll (source : Database) (d : Database) (c : string) : Database :=
  match d !! c with
  | Some docs => <[c := filter (λ kv, kv.1 ∈ dom (coll_of source c)) docs]> d
  | None => d
  end.

Definition user_collections (d : Database) : gset string :=
  list_to_set (filter (λ c, is_system c = false) (elements (dom d))).

Definition reconciled (source d : Database) : Database :=
  let src_cols := user_collections source in
  let dst_cols := user_collections d in
  foldl (reconcile_coll source)
        (foldl (λ d c, delete c d) d (elements (dst_cols ∖ src_cols)))
        (elements (dst_cols ∩ src_cols)).

Definition synced (source d : Database) : Database :=
  reconciled source (upserted source d).

(** The same, collection by collection. *)
Definition upserted_at (source d : Database) (c : string) : option (gmap Z string) :=
  if is_system c then d !! c
  else match source !! c with
       | Some docs => if decide (docs = ∅) then d !! c else Some (docs ∪ coll_of d c)
       | None => d !! c
       end.

(** What reconciling a collection pair leaves in that collection. *)
Definition kept_at (source d : Database) (c : string) : option (gmap Z string) :=
  match d !! c with
  | Some docs => Some (filter (λ kv, kv.1 ∈ dom (coll_of source c)) docs)
  | None => None
  end.

Definition reconciled_at (source d : Database) (c : string) : option (gmap Z string) :=
  if is_system c then d !! c
  else match d !! c, source !! c with
       | Some docs, Some sdocs => Some (filter (λ kv, kv.1 ∈ dom sdocs) docs)
       | _, _ => None
       end.

Definition synced_at (source d : Database) (c : string) : option (gmap Z string) :=
  if is_system c then d !! c
  else match source !! c with
       | Some sdocs =>
           if decide (sdocs = ∅)
           then (if d !! c is Some _ then Some ∅ else None)
           else Some sdocs
       | None => None
       end.

(** ** Runs with store errors: what every step of a run respects

    [grows P Q w w']: the trace of [w'] is the trace of [w] followed by events
    that all satisfy [P], and the destinations are related by [Q]. *)

Definition grows (P : event → Prop) (Q : Database → Database → Prop)
    (w w' : world) : Prop :=
  Q (dest w) (dest w') ∧ ∃ evs, trace w' = trace w ++ evs ∧ Forall P evs.

(** [m] respects [R] from every world, whether it returns or raises. *)
Definition step_inv {A} (R : world → world → Prop) (m : M A) : Prop :=
  ∀ w, R w (m w).2.

(** No event of the trace removes data from a destination. *)
Definition no_removal (e : event) : Prop :=
  match e with
  | Call op _ => is_removal op = false
  | Log _ => True
  end.

(** Nothing is lost: every collection is still there, with at least the
    ids it had. *)
Definition keeps_ids (d d' : Database) : Prop :=
  ∀ c docs, d !! c = Some docs →
    ∃ docs', d' !! c = Some docs' ∧ dom docs ⊆ dom docs'.

(** No event of the trace is a store call on a reserved collection. *)
Definition off_system (e : event) : Prop :=
  match e with
  | Call op _ => ∀ c, op_coll op = Some c → is_system c = false
  | Log _ => True
  end.

(** The reserved collections are as they were. *)
Definition same_system (d d' : Database) : Prop :=
  ∀ c, is_system c = true → d' !! c = d !! c.

(** ** Store errors in the trace *)

#[global] Instance store_op_eq_dec : EqDecision store_op.
Proof. solve_decision. Defined.
#[global] Instance log_entry_eq_dec : EqDecision log_entry.
Proof. solve_decision. Defined.
#[global] Instance event_eq_dec : EqDecision event.
Proof. solve_decision. Defined.

(** A store call that raised. *)
Definition is_failure (e : event) : bool :=
  match e with
  | Call _ true => true
  | _ => false
  end.

(** A store call on collection [c]. *)
Definition is_call_on (c : string) (e : event) : bool :=
  match e with
  | Call op _ => bool_decide (op_coll op = Some c)
  | Log _ => false
  end.

Definition is_count (op : store_op) : bool :=
  match op with
  | CountSource _ | CountDest _ => true
  | _ => false
  end.

(** In the trace of the upsert phase: every store call that raised is a call
    on some collection and is followed at once by the "Error processing"
    line of that collection. *)
Fixpoint failures_logged (evs : list event) : bool :=
  match evs with
  | [] => true
  | Call op true :: rest =>
      match op_coll op with
      | Some c => bool_decide (head rest = Some (Log (ErrorProcessing c)))
      | None => false
      end && failures_logged rest
  | _ :: rest => failures_logged rest
  end.

(** In the trace of the reconciliation phase:
    - a count that raised is followed at once by the "Count error" line of
      its collection, and no later store call is on that collection;
    - a drop that raised is followed at once by its "Failed to drop" line;
    - after any other store call that raised comes the "Mongo error during
      reconciliation" line, and nothing else ([abort] says whether the trace
      may end that way). *)
Fixpoint handled (abort : bool) (evs : list event) : bool :=
  match evs with
  | [] => true
  | Call op true :: rest =>
      match op with
      | CountSource c | CountDest c =>
          bool_decide (head rest = Some (Log (CountError c)))
          && forallb (λ e, negb (is_call_on c e)) rest
      | DropCollection c => bool_decide (head rest = Some (Log (FailedDrop c)))
      | _ => abort && bool_decide (rest = [Log MongoError])
      end && handled abort rest
  | _ :: rest => handled abort rest
  end.

Definition errors_handled (evs : list event) : bool := handled true evs.

(** The store errors that [reconcile_deletions] handles where they occur:
    counts and drops. *)
Definition is_skippable (op : store_op) : bool :=
  match op with
  | CountSource _ | CountDest _ | DropCollection _ => true
  | _ => false
  end.

(** The reads of the document-level reconciliation. *)
Definition is_pair_read (op : store_op) : bool :=
  match op with
  | FindSourceIds _ | FindDestIds _ | ExistsSource _ _ => true
  | _ => false
  end.

(** Document-level store calls: reads and writes of documents. *)
Definition is_data (op : store_op) : bool :=
  match op with
  | FindSource _ | FindSourceIds _ | FindDestIds _ | ExistsSource _ _
  | ReplaceOne _ _ _ | DeleteOne _ _ => true
  | _ => false
  end.

(** A count of collection [c] raised in this trace. *)
Definition count_failed_on (c : string) (evs : list event) : Prop :=
  Call (CountSource c) true ∈ evs ∨ Call (CountDest c) true ∈ evs.

(** The steps of a block without a handler of its own: all events satisfy
    [P]; a store call that raises ends the block. *)
Definition block_events (P : event → Prop) {A} (o : outcome A) (evs : list event) : Prop :=
  Forall P evs ∧
  match o with
  | Done _ => Forall (λ e, is_failure e = false) evs
  | Raised => ∃ evs0 op, evs = evs0 ++ [Call op true]
                         ∧ Forall (λ e, is_failure e = false) evs0
  end.

Definition straight (P : event → Prop) {A} (m : M A) : Prop :=
  ∀ w, ∃ evs, trace (m w).2 = trace w ++ evs ∧ block_events P (m w).1 evs.

(** Store calls on collection [c], and log lines. *)
Definition on_coll (c : string) (e : event) : Prop :=
  match e with
  | Call op _ => op_coll op = Some c
  | Log _ => True
  end.

(** Document-level store calls on collection [c], and log lines. *)
Definition data_on (c : string) (e : event) : Prop :=
  match e with
  | Call op _ => op_coll op = Some c ∧ is_data op = true
  | Log _ => True
  end.

(** Store calls on the collections of [l], and log lines. *)
Definition on_colls (l : list string) (e : event) : Prop :=
  match e with
  | Call op _ => ∃ c, c ∈ l ∧ op_coll op = Some c
  | Log _ => True
  end.

(** Drops, and log lines. *)
Definition drop_or_log (e : event) : Prop :=
  match e with
  | Call (DropCollection _) _ => True
  | Call _ _ => False
  | Log _ => True
  end.

(** ** A destination that is already in sync *)

(** [d] is what a pass without store errors leaves: a further such pass
    would not change it. *)
Definition in_sync (source d : Database) : Prop := synced source d = d.

(** The destination is still [d], and since the trace was [tr0] nothing was
    removed. *)
Definition still (d : Database) (tr0 : list event) (w : world) : Prop :=
  dest w = d ∧ ∃ evs, trace w = tr0 ++ evs ∧ Forall no_removal evs.

(** From a world where [J] holds, [m] ends -- returning or raising -- in a
    world where [J] holds, and what it returns satisfies [Φ]. *)
Definition keeps {A} (J : world → Prop) (m : M A) (Φ : A → Prop) : Prop :=
  ∀ w, J w → J (m w).2 ∧ ∀ a, (m w).1 = Done a → Φ a.

(** ** The strategy selector of the specification *)

Inductive strategy : Type := MATERIALIZE | STREAM.

(** The selector in the specification's words (section 4.1): MATERIALIZE if
    count ≤ threshold, STREAM otherwise.  [up.py] has no such function: both
    phases test [src_count <= IN_MEMORY_ID_THRESHOLD] in line. *)
Definition select_strategy (count threshold : Z) : strategy :=
  if decide (count ≤ threshold) then MATERIALIZE else STREAM.

(** ** Statements of the specification that the code does not meet *)

(** Convergence, for every collection of the source. *)
Definition convergence_claim (threshold : Z) (source : Database)
    (dsts : list Database) : Prop :=
  ∀ c sdocs id body i d,
    source !! c = Some sdocs → sdocs !! id = Some body → dsts !! i = Some d →
    ∃ d' docs, (main reliable threshold source dsts).2.1 !! i = Some d'
               ∧ d' !! c = Some docs ∧ docs !! id = Some body.

(** Deletion fidelity for every collection, and removal of the collections
    that are not reserved and not in the source. *)
Definition deletion_claim (threshold : Z) (source : Database)
    (dsts : list Database) : Prop :=
  ∀ c i d,
    dsts !! i = Some d →
    ∃ d', (main reliable threshold source dsts).2.1 !! i = Some d'
          ∧ (∀ id, id ∈ dom (coll_of d c) → id ∉ dom (coll_of source c) →
                   id ∉ dom (coll_of d' c))
          ∧ (is_system c = false → c ∈ dom d → c ∉ dom source → d' !! c = None).

(** Empty-source reconciliation, for every collection name in both. *)
Definition empty_source_claim (threshold : Z) (source : Database)
    (dsts : list Database) : Prop :=
  ∀ c docs i d,
    source !! c = Some ∅ → dsts !! i = Some d → d !! c = Some docs →
    ∃ d', (main reliable threshold source dsts).2.1 !! i = Some d'
          ∧ d' !! c = Some ∅.

(** Isolation of count and read errors in the document-level
    reconciliation: when the store calls that raised are counts and reads of
    collection pairs, every pair on which no call raised is still
    reconciled. *)
Definition pair_isolation_claim (faults : list event → store_op → bool)
    (threshold : Z) (source : Database) (w : world) : Prop :=
  ∀ evs,
    trace (reconcile_deletions faults threshold source w).2 = trace w ++ evs →
    (∀ op, Call op true ∈ evs → is_count op = true ∨ is_pair_read op = true) →
    ∀ c, c ∈ user_collections (dest w) ∩ user_collections source →
         (∀ op, op_coll op = Some c → Call op true ∉ evs) →
         ∃ b, Call (CountSource c) b ∈ evs.

(** ** Fixtures *)

(** The scenario of the specification: [orders] with ids 1, 2, 3. *)
Definition source_orders : Database :=
  {[ "orders" := {[ 1 := "one"; 2 := "two"; 3 := "three" ]} ]}.

(** A destination with a stale document, a stale collection and a reserved
    collection. *)
Definition dest_stale : Database :=
  {[ "orders" := {[ 1 := "old"; 4 := "four" ]};
     "legacy_orders" := {[ 1 := "one" ]};
     "system.js" := {[ 7 := "f" ]} ]}.

(** A source whose only documents are in a reserved collection. *)
Definition source_system : Database := {[ "system.js" := {[ 7 := "f" ]} ]}.

(** A source with an empty user collection and an empty reserved one. *)
Definition source_empty : Database := {[ "orders" := ∅; "system.js" := ∅ ]}.

(** Two collection pairs, each with a stale document in the destination. *)
Definition source_ab : Database :=
  {[ "a" := {[ 1 := "x" ]}; "b" := {[ 1 := "x" ]} ]}.
Definition dest_ab : Database :=
  {[ "a" := {[ 1 := "x"; 2 := "y" ]}; "b" := {[ 1 := "x"; 2 := "y" ]} ]}.

(** The first read of the document-level reconciliation raises, nothing
    else does. *)
Definition first_read_fails : list event → store_op → bool :=
  λ history op, is_pair_read op && forallb (λ e, negb (is_failure e)) history.

(** Reading the source collection [a] raises, nothing else does. *)
Definition find_a_fails : list event → store_op → bool :=
  λ _ op, bool_decide (op = FindSource "a").

(** Counting the destination collection [a] raises, nothing else does. *)
Definition count_dest_a_fails : list event → store_op → bool :=
  λ _ op, bool_decide (op = CountDest "a").

(** ** Further properties of the two phases and of [main] *)

(** [m] never looks at the destination: from two worlds with the same trace
    it has the same outcome and leaves the same trace. *)
Definition blind {A} (m : M A) : Prop :=
  ∀ w1 w2, trace w1 = trace w2 →
    (m w1).1 = (m w2).1 ∧ trace (m w1).2 = trace (m w2).2.

(** No event of the trace writes a document. *)
Definition no_write (e : event) : Prop :=
  match e with
  | Call (ReplaceOne _ _ _) _ => False
  | _ => True
  end.

(** Nothing is added or changed: every collection of [d'] is a collection
    of [d], and its documents are documents of [d] with the same body. *)
Definition shrinks (d d' : Database) : Prop :=
  ∀ c docs', d' !! c = Some docs' → ∃ docs, d !! c = Some docs ∧ docs' ⊆ docs.

(** A delete is of an id the source does not hold, a drop is of a
    collection the source does not have. *)
Definition spares (source : Database) (e : event) : Prop :=
  match e with
  | Call (DeleteOne c id) _ => coll_of source c !! id = None
  | Call (DropCollection c) _ => source !! c = None
  | _ => True
  end.

(** Every document of [d0] whose id the source holds in the collection of
    the same name is in [d] with the same body. *)
Definition spared (source d0 d : Database) : Prop :=
  ∀ c id body,
    is_Some (coll_of source c !! id) → coll_of d0 c !! id = Some body →
    coll_of d c !! id = Some body.

(** The invariant of a reconciliation started on [d0] with trace [tr0]. *)
Definition sparing (source d0 : Database) (tr0 : list event) (w : world) : Prop :=
  spared source d0 (dest w)
  ∧ ∃ evs, trace w = tr0 ++ evs ∧ Forall (spares source) evs.

(** Every store call raises, except the listing of the source collections. *)
Definition all_but_listing_fail : list event → store_op → bool :=
  λ _ op, negb (bool_decide (op = ListSource)).

(** Every drop raises, nothing else does. *)
Definition drops_fail : list event → store_op → bool :=
  λ _ op, match op with DropCollection _ => true | _ => false end.

(** A destination with two collections the source does not have. *)
Definition dest_two_stale : Database :=
  {[ "legacy_orders" := {[ 1 := "one" ]}; "old_carts" := {[ 2 := "two" ]} ]}.

(** A write is of a document the source holds, under the same id, in the
    collection of the same name. *)
Definition from_source (source : Database) (e : event) : Prop :=
  match e with
  | Call (ReplaceOne c id body) _ => coll_of source c !! id = Some body
  | _ => True
  end.

(** Every document of [d'] is a document of [d] or a document of the
    source, under the same id in the collection of the same name. *)
Definition no_invention (source d d' : Database) : Prop :=
  ∀ c id body,
    coll_of d' c !! id = Some body →
    coll_of d c !! id = Some body ∨ coll_of source c !! id = Some body.

(** The collections the upsert phase has nothing to write to -- reserved,
    or absent or empty in the source -- are in [d'] as they are in [d]. *)
Definition rest_alone (source d d' : Database) : Prop :=
  ∀ c, is_system c = true ∨ coll_of source c = ∅ → d' !! c = d !! c.

(** The invariant of an upsert phase started on [d0] with trace [tr0]. *)
Definition copying (source d0 : Database) (tr0 : list event) (w : world) : Prop :=
  rest_alone source d0 (dest w)
  ∧ no_invention source d0 (dest w)
  ∧ ∃ evs, trace w = tr0 ++ evs ∧ Forall (from_source source) evs.

(** ** What the counts in the log lines count *)

Definition is_call (e : event) : bool :=
  match e with
  | Call _ _ => true
  | Log _ => false
  end.

(** The [delete_one] calls of a trace that returned. *)
Fixpoint deletes_done (evs : list event) : nat :=
  match evs with
  | [] => 0
  | Call (DeleteOne _ _) false :: rest => S (deletes_done rest)
  | _ :: rest => deletes_done rest
  end.

(** The [replace_one] calls that write the documents [docs] to collection
    [c], each returning. *)
Definition writes_of (c : string) (docs : list (Z * string)) : list event :=
  (λ doc, Call (ReplaceOne c doc.1 doc.2) false) <$> docs.

(** What a branch of the document-level reconciliation leaves in the trace:
    calls, and, when it returns, the "Deleted" line with the number of
    [delete_one] calls that returned. *)
Definition branch_trace (c : string) (o : outcome unit) (evs : list event) : Prop :=
  match o with
  | Done _ => ∃ calls, evs = calls ++ [Log (Deleted (deletes_done calls) c)]
                       ∧ Forall (λ e, is_call e = true) calls
  | Raised => Forall (λ e, is_call e = true) evs
  end.

(** * Proofs *)

Create HintDb sync.

(** ** The monad on runs without store errors *)

Lemma pure_ret {A} (a : A) d : pure_run (ret a) d a d.
Proof. intros tr. exists []. by rewrite app_nil_r. Qed.

Lemma pure_bind {A B} (m : M A) (k : A → M B) d a d1 b d2 :
  pure_run m d a d1 → pure_run (k a) d1 b d2 → pure_run (bind m k) d b d2.
Proof.
  intros Hm Hk tr. destruct (Hm tr) as [e1 H1].
  destruct (Hk (tr ++ e1)) as [e2 H2].
  exists (e1 ++ e2). unfold bind. rewrite H1, H2. by rewrite app_assoc.
Qed.

Lemma pure_try {A} (m h : M A) d a d' :
  pure_run m d a d' → pure_run (try_except m h) d a d'.
Proof.
  intros Hm tr. destruct (Hm tr) as [e1 H1]. exists e1.
  unfold try_except. by rewrite H1.
Qed.

Lemma pure_run_eq {A} (m : M A) d a d1 d2 :
  pure_run m d a d1 → d1 = d2 → pure_run m d a d2.
Proof. by intros H <-. Qed.

Lemma pure_log entry d : pure_run (log entry) d tt d.
Proof. intros tr. by exists [Log entry]. Qed.

Lemma pure_read d : pure_run read_dest d d d.
Proof. intros tr. exists []. unfold read_dest. simpl. by rewrite app_nil_r. Qed.

Lemma pure_write f d : pure_run (write_dest f) d tt (f d).
Proof. intros tr. exists []. unfold write_dest. simpl. by rewrite app_nil_r. Qed.

Lemma pure_call op d : pure_run (call reliable op) d tt d.
Proof. intros tr. by exists [Call op false]. Qed.

Lemma pure_for_each {A} (body : A → M unit) (g : Database → A → Database) l :
  (∀ x d, pure_run (body x) d tt (g d x)) →
  ∀ d, pure_run (for_each l body) d tt (foldl g d l).
Proof.
  intros Hbody. induction l as [|x l IH]; intros d; simpl.
  - apply pure_ret.
  - eapply pure_bind; [apply Hbody | apply IH].
Qed.

Lemma pure_for_each_counting {A} (body : A → nat → M nat)
    (g : Database → A → Database) l :
  (∀ x n d, ∃ n', pure_run (body x n) d n' (g d x)) →
  ∀ n d, ∃ n', pure_run (for_each_counting l body n) d n' (foldl g d l).
Proof.
  intros Hbody. induction l as [|x l IH]; intros n d; simpl.
  - exists n. apply pure_ret.
  - destruct (Hbody x n d) as [n1 H1]. destruct (IH n1 (g d x)) as [n2 H2].
    exists n2. eapply pure_bind; [apply H1 | apply H2].
Qed.

(** A run without store errors determines its result. *)
Lemma pure_run_dest {A} (m : M A) d a d' tr :
  pure_run m d a d' → dest (m (World d tr)).2 = d'.
Proof. intros H. destruct (H tr) as [evs ->]. done. Qed.

Lemma pure_run_outcome {A} (m : M A) d a d' tr :
  pure_run m d a d' → (m (World d tr)).1 = Done a.
Proof. intros H. destruct (H tr) as [evs ->]. done. Qed.

#[local] Hint Resolve pure_ret pure_log pure_read pure_write pure_call : sync.

(** ** The store accessors *)

Lemma pure_src_list source d :
  pure_run (src_list_collection_names reliable source) d (elements (dom source)) d.
Proof. eapply pure_bind; eauto with sync. Qed.

Lemma pure_src_count source coll d :
  pure_run (src_count_documents reliable source coll) d
           (Z.of_nat (size (coll_of source coll))) d.
Proof. eapply pure_bind; eauto with sync. Qed.

Lemma pure_src_find source coll d :
  pure_run (src_find reliable source coll) d (map_to_list (coll_of source coll)) d.
Proof. eapply pure_bind; eauto with sync. Qed.

Lemma pure_src_find_ids source coll d :
  pure_run (src_find_ids reliable source coll) d ((map_to_list (coll_of source coll)).*1) d.
Proof. eapply pure_bind; eauto with sync. Qed.

Lemma pure_src_count_id source coll id d :
  pure_run (src_count_id reliable source coll id) d
           (if coll_of source coll !! id is Some _ then 1 else 0) d.
Proof. eapply pure_bind; eauto with sync. Qed.

Lemma pure_dst_list d :
  pure_run (dst_list_collection_names reliable) d (elements (dom d)) d.
Proof.
  eapply pure_bind; [apply pure_call|].
  eapply pure_bind; [apply pure_read|]. apply pure_ret.
Qed.

Lemma pure_dst_count coll d :
  pure_run (dst_count_documents reliable coll) d (Z.of_nat (size (coll_of d coll))) d.
Proof.
  eapply pure_bind; [apply pure_call|].
  eapply pure_bind; [apply pure_read|]. apply pure_ret.
Qed.

Lemma pure_dst_find_ids coll d :
  pure_run (dst_find_ids reliable coll) d ((map_to_list (coll_of d coll)).*1) d.
Proof.
  eapply pure_bind; [apply pure_call|].
  eapply pure_bind; [apply pure_read|]. apply pure_ret.
Qed.

Lemma pure_dst_replace_one coll doc d :
  pure_run (dst_replace_one reliable coll doc) d tt (replace_doc coll doc d).
Proof. eapply pure_bind; [apply pure_call | apply pure_write]. Qed.

Lemma pure_dst_delete_one coll id d :
  pure_run (dst_delete_one reliable coll id) d tt (delete_doc coll id d).
Proof. eapply pure_bind; [apply pure_call | apply pure_write]. Qed.

Lemma pure_dst_drop coll d :
  pure_run (dst_drop_collection reliable coll) d tt (delete coll d).
Proof. eapply pure_bind; [apply pure_call | apply pure_write]. Qed.

(** ** Step A without store errors *)

Lemma coll_of_insert (d : Database) c docs : coll_of (<[c := docs]> d) c = docs.
Proof. unfold coll_of. by rewrite lookup_insert_eq. Qed.

Lemma coll_of_insert_ne (d : Database) c c' docs :
  c ≠ c' → coll_of (<[c := docs]> d) c' = coll_of d c'.
Proof. intros. unfold coll_of. by rewrite lookup_insert_ne. Qed.

(** Writing a list of documents with distinct ids, one [replace_one] each. *)
Lemma foldl_replace_doc c (docs : list (Z * string)) (d : Database) :
  NoDup docs.*1 → docs ≠ [] →
  foldl (λ d doc, replace_doc c doc d) d docs
  = <[c := list_to_map docs ∪ coll_of d c]> d.
Proof.
  revert d. induction docs as [|[k v] docs IH]; intros d Hnd Hne; [done|].
  apply NoDup_cons in Hnd as [Hk Hnd]. simpl.
  destruct docs as [|doc' docs'].
  - simpl. unfold replace_doc. simpl. f_equal.
    by rewrite <- insert_union_l, (left_id_L ∅ (∪)).
  - rewrite IH by done. unfold replace_doc at 1 2. simpl fst. simpl snd.
    rewrite coll_of_insert, insert_insert_eq. f_equal.
    rewrite <- insert_union_l. rewrite <- insert_union_r; [done|].
    by apply not_elem_of_list_to_map_1.
Qed.

Lemma pure_upsert_writes source c d :
  coll_of source c ≠ ∅ →
  pure_run (for_each (map_to_list (coll_of source c))
                     (λ doc, dst_replace_one reliable c doc))
           d tt (<[c := coll_of source c ∪ coll_of d c]> d).
Proof.
  intros Hne. eapply pure_run_eq.
  - apply (pure_for_each _ (λ d doc, replace_doc c doc d)).
    intros. apply pure_dst_replace_one.
  - rewrite foldl_replace_doc.
    + by rewrite list_to_map_to_list.
    + apply NoDup_fst_map_to_list.
    + by rewrite map_to_list_empty_iff.
Qed.

Lemma pure_upsert_materialize source c d :
  coll_of source c ≠ ∅ →
  pure_run (upsert_materialize reliable source c) d tt
           (<[c := coll_of source c ∪ coll_of d c]> d).
Proof.
  intros Hne. eapply pure_bind; [apply pure_src_find|].
  eapply pure_bind; [by apply pure_upsert_writes|]. apply pure_log.
Qed.

Lemma pure_upsert_stream source c d :
  coll_of source c ≠ ∅ →
  pure_run (upsert_stream reliable source c) d tt
           (<[c := coll_of source c ∪ coll_of d c]> d).
Proof.
  intros Hne. eapply pure_bind; [apply pure_src_find|].
  by apply pure_upsert_writes.
Qed.

Lemma pure_upsert_collection threshold source c d :
  pure_run (upsert_collection reliable threshold source c) d tt (upsert_coll source c d).
Proof.
  apply pure_try. eapply pure_bind; [apply pure_src_count|].
  unfold upsert_coll. destruct (decide (coll_of source c = ∅)) as [He|Hne].
  - rewrite He, map_size_empty. simpl. apply pure_ret.
  - destruct (Z.eqb_spec (Z.of_nat (size (coll_of source c))) 0) as [H0|_].
    { exfalso. apply Hne, map_size_empty_iff. lia. }
    eapply pure_bind; [apply pure_log|].
    destruct (_ <=? _).
    + by apply pure_upsert_materialize.
    + by apply pure_upsert_stream.
Qed.

Lemma pure_incremental_upsert threshold source d :
  pure_run (incremental_upsert reliable threshold source) d tt (upserted source d).
Proof.
  eapply pure_bind; [apply pure_log|].
  eapply pure_bind; [apply pure_src_list|].
  apply (pure_for_each _ (upsert_step source)).
  intros c d'. unfold upsert_step. destruct (is_system c).
  - apply pure_ret.
  - apply pure_upsert_collection.
Qed.

(** ** Step B without store errors *)

Lemma delete_doc_lookup c id (d : Database) docs :
  d !! c = Some docs → delete_doc c id d = <[c := delete id docs]> d.
Proof. intros H. unfold delete_doc. by rewrite H. Qed.

Lemma delete_doc_absent c id (d : Database) :
  d !! c = None → delete_doc c id d = d.
Proof. intros H. unfold delete_doc. by rewrite H. Qed.

(** A deletion loop over the ids [l] keeps what is in [keep] or not in [l]. *)
Lemma foldl_delete_step keep c (l : list Z) (d : Database) docs :
  d !! c = Some docs →
  foldl (delete_step keep c) d l
  = <[c := filter (λ kv, kv.1 ∈ keep ∨ kv.1 ∉ l) docs]> d.
Proof.
  revert d docs. induction l as [|id l IH]; intros d docs Hd; simpl.
  - rewrite insert_id; [done|]. rewrite Hd. f_equal. symmetry.
    apply map_filter_id. intros i x _. right. apply not_elem_of_nil.
  - unfold delete_step at 2. case_bool_decide as Hin.
    + rewrite (IH _ _ Hd). f_equal. apply map_filter_ext.
      intros i x _. simpl. rewrite not_elem_of_cons.
      split; [|intros [?|[? ?]]; [by left | by right]].
      intros [?|?]; [by left|].
      destruct (decide (i = id)) as [->|?]; [by left | by right].
    + rewrite (delete_doc_lookup _ _ _ _ Hd).
      rewrite (IH _ (delete id docs)) by apply lookup_insert_eq.
      rewrite insert_insert_eq. f_equal.
      apply map_eq. intros i. apply option_eq. intros x.
      rewrite !map_lookup_filter_Some, lookup_delete_Some. simpl.
      rewrite not_elem_of_cons. split.
      * intros [[Hne Hx] [?|?]]; (split; [done|]); [by left | by right].
      * intros [Hx [?|[Hne ?]]]; [|by split; [split|right]].
        split; [split; [|done]|by left]. intros ->. by apply Hin.
Qed.

Lemma foldl_delete_step_absent keep c (l : list Z) (d : Database) :
  d !! c = None → foldl (delete_step keep c) d l = d.
Proof.
  intros Hd. induction l as [|id l IH]; simpl; [done|].
  unfold delete_step at 2. case_bool_decide; [done|].
  by rewrite delete_doc_absent.
Qed.

(** Over all the ids of the collection, what is kept is what is in [keep]. *)
Lemma foldl_delete_step_all source c (d : Database) :
  foldl (delete_step (dom (coll_of source c)) c) d ((map_to_list (coll_of d c)).*1)
  = reconcile_coll source d c.
Proof.
  unfold reconcile_coll, coll_of at 2. destruct (d !! c) as [docs|] eqn:Hd; simpl.
  - rewrite (foldl_delete_step _ _ _ _ docs Hd). f_equal.
    apply map_filter_ext. intros i x Hix. simpl. split; [|by left].
    intros [?|Hni]; [done|]. exfalso. apply Hni.
    apply list_elem_of_fmap. exists (i, x). split; [done|].
    by apply elem_of_map_to_list.
  - by rewrite map_to_list_empty.
Qed.

Lemma source_ids_dom (docs : gmap Z string) :
  list_to_set (map_to_list docs).*1 =@{gset Z} dom docs.
Proof. symmetry. apply leibniz_equiv, dom_alt. Qed.

Lemma pure_reconcile_materialize source c d :
  pure_run (reconcile_materialize reliable source c) d tt (reconcile_coll source d c).
Proof.
  eapply pure_bind; [apply pure_src_find_ids|]. simpl.
  rewrite source_ids_dom.
  eapply pure_bind; [apply pure_dst_find_ids|].
  destruct (pure_for_each_counting
              (λ id deleted,
                 if bool_decide (id ∈ dom (coll_of source c)) then ret deleted
                 else bind (dst_delete_one reliable c id) (λ _, ret (S deleted)))
              (delete_step (dom (coll_of source c)) c)
              ((map_to_list (coll_of d c)).*1)) with (n := 0%nat) (d := d)
    as [n Hn].
  { intros id k d'. unfold delete_step. case_bool_decide.
    - exists k. apply pure_ret.
    - exists (S k). eapply pure_bind; [apply pure_dst_delete_one | apply pure_ret]. }
  rewrite foldl_delete_step_all in Hn.
  eapply pure_bind; [apply Hn | apply pure_log].
Qed.

Lemma pure_reconcile_stream source c d :
  pure_run (reconcile_stream reliable source c) d tt (reconcile_coll source d c).
Proof.
  eapply pure_bind; [apply pure_dst_find_ids|].
  destruct (pure_for_each_counting
              (λ id deleted,
                 bind (src_count_id reliable source c id) (λ n,
                   if n =? 0
                   then bind (dst_delete_one reliable c id) (λ _, ret (S deleted))
                   else ret deleted))
              (delete_step (dom (coll_of source c)) c)
              ((map_to_list (coll_of d c)).*1)) with (n := 0%nat) (d := d)
    as [n Hn].
  { intros id k d'. unfold delete_step.
    destruct (coll_of source c !! id) as [x|] eqn:Hid.
    - exists k. rewrite bool_decide_eq_true_2 by (apply elem_of_dom; eauto).
      eapply pure_bind; [apply pure_src_count_id|]. rewrite Hid. apply pure_ret.
    - exists (S k). rewrite bool_decide_eq_false_2 by (by apply not_elem_of_dom).
      eapply pure_bind; [apply pure_src_count_id|]. rewrite Hid. simpl.
      eapply pure_bind; [apply pure_dst_delete_one | apply pure_ret]. }
  rewrite foldl_delete_step_all in Hn.
  eapply pure_bind; [apply Hn | apply pure_log].
Qed.

Lemma pure_reconcile_collection threshold source c d :
  pure_run (reconcile_collection reliable threshold source c) d tt
           (reconcile_coll source d c).
Proof.
  eapply pure_bind.
  { apply pure_try. eapply pure_bind; [apply pure_src_count|].
    eapply pure_bind; [apply pure_dst_count|]. apply pure_ret. }
  simpl. eapply pure_bind; [apply pure_log|].
  destruct (_ <=? _).
  - apply pure_reconcile_materialize.
  - apply pure_reconcile_stream.
Qed.

Lemma pure_drop_stale_collection c d :
  pure_run (drop_stale_collection reliable c) d tt (delete c d).
Proof.
  apply pure_try. eapply pure_bind; [apply pure_log | apply pure_dst_drop].
Qed.

Lemma pure_reconcile_deletions threshold source d :
  pure_run (reconcile_deletions reliable threshold source) d tt (reconciled source d).
Proof.
  eapply pure_bind; [apply pure_log|]. apply pure_try.
  eapply pure_bind; [apply pure_src_list|].
  eapply pure_bind; [apply pure_dst_list|]. simpl.
  eapply pure_bind.
  - apply (pure_for_each _ (λ d c, delete c d)).
    intros. apply pure_drop_stale_collection.
  - apply (pure_for_each _ (reconcile_coll source)).
    intros. apply pure_reconcile_collection.
Qed.

Lemma pure_sync_destination threshold source d :
  pure_run (sync_destination reliable threshold source) d tt (synced source d).
Proof.
  eapply pure_bind; [apply pure_incremental_upsert | apply pure_reconcile_deletions].
Qed.

(** [main] without store errors: every destination becomes its [synced]. *)
Lemma main_loop_reliable threshold source dsts tr :
  ∃ evs, main_loop reliable threshold source dsts tr
         = (Done tt, (synced source <$> dsts, tr ++ evs)).
Proof.
  revert tr. induction dsts as [|d dsts IH]; intros tr; simpl.
  - exists []. by rewrite app_nil_r.
  - destruct (pure_sync_destination threshold source d tr) as [e1 ->]. simpl.
    destruct (IH (tr ++ e1)) as [e2 ->].
    exists (e1 ++ e2). by rewrite app_assoc.
Qed.

Lemma main_reliable threshold source dsts :
  ∃ tr, main reliable threshold source dsts
        = (Done tt, (synced source <$> dsts, tr)).
Proof.
  unfold main. destruct (main_loop_reliable threshold source dsts []) as [evs ->].
  eauto.
Qed.

(** ** The result of a pass, collection by collection *)

(** A loop whose body at [c] rewrites collection [c] only, from what that
    collection was: each name of the list is rewritten once. *)
Lemma foldl_local_lookup (g : Database → string → Database)
    (at_ : Database → string → option (gmap Z string)) :
  (∀ d c, g d c !! c = at_ d c) →
  (∀ d c c', c ≠ c' → g d c !! c' = d !! c') →
  (∀ d1 d2 c, d1 !! c = d2 !! c → at_ d1 c = at_ d2 c) →
  ∀ l d c, NoDup l →
    foldl g d l !! c = if decide (c ∈ l) then at_ d c else d !! c.
Proof.
  intros Hat Hother Hloc. induction l as [|c0 l IH]; intros d c Hnd; cbn [foldl].
  - rewrite decide_False; [done | apply not_elem_of_nil].
  - apply NoDup_cons in Hnd as [Hc0 Hnd]. rewrite (IH _ _ Hnd).
    destruct (decide (c = c0)) as [->|Hne].
    + rewrite (decide_False (P := c0 ∈ l)) by done.
      rewrite (decide_True (P := c0 ∈ c0 :: l)) by apply list_elem_of_here.
      apply Hat.
    + destruct (decide (c ∈ l)) as [Hin|Hnin].
      * rewrite (decide_True (P := c ∈ c0 :: l)) by (by apply list_elem_of_further).
        apply Hloc, Hother. congruence.
      * rewrite (decide_False (P := c ∈ c0 :: l))
          by (rewrite elem_of_cons; intros [?|?]; done).
        apply Hother. congruence.
Qed.

Lemma coll_of_lookup (d : Database) c docs : d !! c = Some docs → coll_of d c = docs.
Proof. intros H. unfold coll_of. by rewrite H. Qed.

Lemma coll_of_absent (d : Database) c : d !! c = None → coll_of d c = ∅.
Proof. intros H. unfold coll_of. by rewrite H. Qed.

Lemma upserted_at_local source (d1 d2 : Database) c :
  d1 !! c = d2 !! c → upserted_at source d1 c = upserted_at source d2 c.
Proof. intros H. unfold upserted_at, coll_of. by rewrite H. Qed.

Lemma upsert_step_lookup source (d : Database) c :
  upsert_step source d c !! c = upserted_at source d c.
Proof.
  unfold upsert_step, upserted_at, upsert_coll. destruct (is_system c); [done|].
  destruct (source !! c) as [docs|] eqn:Hs.
  - rewrite (coll_of_lookup _ _ _ Hs).
    destruct (decide (docs = ∅)); [done|]. by rewrite lookup_insert_eq.
  - rewrite (coll_of_absent _ _ Hs). by rewrite decide_True.
Qed.

Lemma upsert_step_lookup_ne source (d : Database) c c' :
  c ≠ c' → upsert_step source d c !! c' = d !! c'.
Proof.
  intros Hne. unfold upsert_step, upsert_coll. destruct (is_system c); [done|].
  destruct (decide _); [done|]. by rewrite lookup_insert_ne.
Qed.

Lemma upserted_lookup source (d : Database) c :
  upserted source d !! c = upserted_at source d c.
Proof.
  unfold upserted.
  rewrite (foldl_local_lookup _ (upserted_at source));
    [ | apply upsert_step_lookup | apply upsert_step_lookup_ne
      | apply upserted_at_local | apply NoDup_elements ].
  destruct (decide _) as [|Hnin]; [done|].
  rewrite elem_of_elements, elem_of_dom, <- eq_None_not_Some in Hnin.
  unfold upserted_at. rewrite Hnin. by destruct (is_system c).
Qed.

Lemma elem_of_user_collections (d : Database) c :
  c ∈ user_collections d ↔ is_system c = false ∧ is_Some (d !! c).
Proof.
  unfold user_collections.
  by rewrite elem_of_list_to_set, list_elem_of_filter, elem_of_elements, elem_of_dom.
Qed.

Lemma foldl_delete_lookup (l : list string) (d : Database) c :
  foldl (λ d c, delete c d) d l !! c = if decide (c ∈ l) then None else d !! c.
Proof.
  revert d. induction l as [|c0 l IH]; intros d; cbn [foldl].
  - rewrite decide_False; [done | apply not_elem_of_nil].
  - rewrite IH. destruct (decide (c = c0)) as [->|Hne].
    + rewrite (decide_True (P := c0 ∈ c0 :: l)) by apply list_elem_of_here.
      rewrite lookup_delete_eq. by destruct (decide _).
    + rewrite lookup_delete_ne by congruence.
      destruct (decide (c ∈ l)) as [Hin|Hnin].
      * by rewrite (decide_True (P := c ∈ c0 :: l)) by (by apply list_elem_of_further).
      * rewrite (decide_False (P := c ∈ c0 :: l)); [done|].
        rewrite elem_of_cons. by intros [?|?].
Qed.

Lemma reconcile_coll_lookup source (d : Database) c :
  reconcile_coll source d c !! c = kept_at source d c.
Proof.
  unfold reconcile_coll, kept_at. destruct (d !! c) eqn:Hd; [|done].
  by rewrite lookup_insert_eq.
Qed.

Lemma reconcile_coll_lookup_ne source (d : Database) c c' :
  c ≠ c' → reconcile_coll source d c !! c' = d !! c'.
Proof.
  intros Hne. unfold reconcile_coll. destruct (d !! c); [|done].
  by rewrite lookup_insert_ne.
Qed.

Lemma reconciled_lookup source (d : Database) c :
  reconciled source d !! c = reconciled_at source d c.
Proof.
  unfold reconciled.
  rewrite (foldl_local_lookup _ (kept_at source));
    [ | apply reconcile_coll_lookup | apply reconcile_coll_lookup_ne
      | by intros d1 d2 c' H; unfold kept_at; rewrite H | apply NoDup_elements ].
  unfold kept_at. rewrite !foldl_delete_lookup.
  unfold reconciled_at.
  destruct (decide (c ∈ elements (user_collections d ∩ user_collections source)))
    as [Hin|Hnin];
  destruct (decide (c ∈ elements (user_collections d ∖ user_collections source)))
    as [Hin'|Hnin'];
  rewrite elem_of_elements in *;
  rewrite ?elem_of_intersection, ?elem_of_difference, !elem_of_user_collections in *.
  - destruct Hin as [_ Hs], Hin' as [_ Hns]. by destruct Hns.
  - destruct Hin as [[-> [docs ->]] [_ [sdocs Hs]]].
    rewrite Hs. by rewrite (coll_of_lookup _ _ _ Hs).
  - destruct Hin' as [[-> [docs ->]] Hns].
    destruct (source !! c) eqn:Hs; [|done]. exfalso. apply Hns. eauto.
  - destruct (is_system c) eqn:Hsys; [done|].
    destruct (d !! c) as [docs|] eqn:Hd; [|done].
    destruct (source !! c) as [sdocs|] eqn:Hs.
    + exfalso. apply Hnin. eauto.
    + exfalso. apply Hnin'. split; [eauto|]. intros [_ [? ?]]. congruence.
Qed.

Lemma filter_dom_union (sdocs docs : gmap Z string) :
  filter (λ kv, kv.1 ∈ dom sdocs) (sdocs ∪ docs) = sdocs.
Proof.
  apply map_eq. intros i. apply option_eq. intros x.
  rewrite map_lookup_filter_Some, lookup_union_Some_raw, elem_of_dom. simpl.
  split.
  - intros [[?|[Hn ?]] [y Hy]]; [done | congruence].
  - intros H. split; [by left | eauto].
Qed.

Lemma filter_dom_empty (docs : gmap Z string) :
  filter (λ kv : Z * string, kv.1 ∈ dom (∅ : gmap Z string)) docs = ∅.
Proof.
  apply map_eq. intros i. rewrite lookup_empty. apply map_lookup_filter_None.
  right. intros x _. simpl. rewrite dom_empty_L. apply not_elem_of_empty.
Qed.

Lemma synced_lookup source (d : Database) c :
  synced source d !! c = synced_at source d c.
Proof.
  unfold synced. rewrite reconciled_lookup.
  unfold reconciled_at, synced_at. rewrite upserted_lookup. unfold upserted_at.
  destruct (is_system c); [done|].
  destruct (source !! c) as [sdocs|] eqn:Hs.
  - destruct (decide (sdocs = ∅)) as [->|Hne].
    + destruct (d !! c); [|done]. by rewrite filter_dom_empty.
    + by rewrite filter_dom_union.
  - by destruct (d !! c).
Qed.

(** ** What every run respects, store errors or not *)

Section StepInv.

Context (R : world → world → Prop) `{!Reflexive R} `{!Transitive R}.

Lemma inv_ret {A} (a : A) : step_inv R (ret a).
Proof. intros w. simpl. reflexivity. Qed.

Lemma inv_bind {A B} (m : M A) (k : A → M B) :
  step_inv R m → (∀ a, step_inv R (k a)) → step_inv R (bind m k).
Proof.
  intros Hm Hk w. unfold bind. specialize (Hm w).
  destruct (m w) as [[a|] w1]; simpl in *; [|done].
  etransitivity; [exact Hm | apply Hk].
Qed.

Lemma inv_try {A} (m h : M A) :
  step_inv R m → step_inv R h → step_inv R (try_except m h).
Proof.
  intros Hm Hh w. unfold try_except. specialize (Hm w).
  destruct (m w) as [[a|] w1]; simpl in *; [done|].
  etransitivity; [exact Hm | apply Hh].
Qed.

Lemma inv_for_each {A} (l : list A) (body : A → M unit) :
  (∀ x, x ∈ l → step_inv R (body x)) → step_inv R (for_each l body).
Proof.
  induction l as [|x l IH]; intros Hbody; simpl.
  - apply inv_ret.
  - apply inv_bind.
    + apply Hbody, list_elem_of_here.
    + intros _. apply IH. intros y Hy. by apply Hbody, list_elem_of_further.
Qed.

Lemma inv_for_each_counting {A} (l : list A) (body : A → nat → M nat) n :
  (∀ x k, x ∈ l → step_inv R (body x k)) →
  step_inv R (for_each_counting l body n).
Proof.
  revert n. induction l as [|x l IH]; intros n Hbody; simpl.
  - apply inv_ret.
  - apply inv_bind.
    + apply Hbody, list_elem_of_here.
    + intros n'. apply IH. intros y k Hy. by apply Hbody, list_elem_of_further.
Qed.

Lemma inv_read : step_inv R read_dest.
Proof. intros w. simpl. reflexivity. Qed.

End StepInv.

Section Grows.

Context (P : event → Prop) (Q : Database → Database → Prop).
Context `{!Reflexive Q} `{!Transitive Q}.

#[local] Instance grows_refl : Reflexive (grows P Q).
Proof.
  intros w. split; [reflexivity|]. exists []. by rewrite app_nil_r.
Qed.

#[local] Instance grows_trans : Transitive (grows P Q).
Proof.
  intros w1 w2 w3 [HQ1 (e1 & He1 & HP1)] [HQ2 (e2 & He2 & HP2)]. split.
  - by etransitivity.
  - exists (e1 ++ e2). split.
    + by rewrite He2, He1, app_assoc.
    + by apply Forall_app.
Qed.

Lemma grows_emit e w : P e → grows P Q w (emit e w).
Proof.
  intros He. split; [reflexivity|]. exists [e]. split; [done|].
  by apply Forall_singleton.
Qed.

Lemma inv_log entry : P (Log entry) → step_inv (grows P Q) (log entry).
Proof. intros He w. by apply grows_emit. Qed.

Lemma inv_call faults op :
  (∀ b, P (Call op b)) → step_inv (grows P Q) (call faults op).
Proof.
  intros He w. unfold call. destruct (faults _ _); by apply grows_emit.
Qed.

Lemma inv_write f : (∀ d, Q d (f d)) → step_inv (grows P Q) (write_dest f).
Proof.
  intros Hf w. split; [apply Hf|]. exists []. simpl. by rewrite app_nil_r.
Qed.

End Grows.

#[local] Existing Instances grows_refl grows_trans.

#[local] Instance keeps_ids_refl : Reflexive keeps_ids.
Proof. intros d c docs H. eauto. Qed.

#[local] Instance keeps_ids_trans : Transitive keeps_ids.
Proof.
  intros d1 d2 d3 H12 H23 c docs H.
  destruct (H12 _ _ H) as (docs2 & H2 & Hsub2).
  destruct (H23 _ _ H2) as (docs3 & H3 & Hsub3).
  exists docs3. split; [done|]. set_solver.
Qed.

#[local] Instance same_system_refl : Reflexive same_system.
Proof. by intros d c _. Qed.

#[local] Instance same_system_trans : Transitive same_system.
Proof. intros d1 d2 d3 H12 H23 c Hc. by rewrite H23, H12. Qed.

(** Steps through a computation, one construct at a time. *)
Ltac i_ret := apply inv_ret; apply _.
Ltac i_bind := apply inv_bind; [apply _ .. | | intros ?].
Ltac i_try := apply inv_try; [apply _ .. | | ].
Ltac i_log := apply inv_log; [apply _ .. | try exact I].
Ltac i_call := apply inv_call; [apply _ .. | intros ?; simpl].
Ltac i_write := apply inv_write; [apply _ .. | ].
Ltac i_for := apply inv_for_each; [apply _ .. | intros ? ?].
Ltac i_for_counting := apply inv_for_each_counting; [apply _ .. | intros ? ? ?].
Ltac i_read := apply inv_read; apply _.

(** *** The upsert phase removes nothing *)

Lemma replace_doc_keeps_ids c doc d : keeps_ids d (replace_doc c doc d).
Proof.
  intros c' docs Hd. unfold replace_doc.
  destruct (decide (c = c')) as [<-|Hne].
  - rewrite lookup_insert_eq. eexists. split; [done|].
    rewrite (coll_of_lookup _ _ _ Hd), dom_insert_L. set_solver.
  - rewrite lookup_insert_ne by done. eauto.
Qed.

Lemma upsert_collection_keeps faults threshold source c :
  step_inv (grows no_removal keeps_ids) (upsert_collection faults threshold source c).
Proof.
  assert (Hwrites : ∀ l : list (Z * string),
            step_inv (grows no_removal keeps_ids)
              (for_each l (λ doc, dst_replace_one faults c doc))).
  { intros l. i_for. i_bind; [by i_call|]. i_write. apply replace_doc_keeps_ids. }
  assert (Hfind : step_inv (grows no_removal keeps_ids) (src_find faults source c)).
  { i_bind; [by i_call | i_ret]. }
  i_try; [|i_log]. i_bind.
  { i_bind; [by i_call | i_ret]. }
  destruct (_ =? 0); [i_ret|]. i_bind; [i_log|].
  destruct (_ <=? threshold).
  - i_bind; [apply Hfind|]. i_bind; [apply Hwrites | i_log].
  - i_bind; [apply Hfind | apply Hwrites].
Qed.

Lemma incremental_upsert_keeps faults threshold source :
  step_inv (grows no_removal keeps_ids) (incremental_upsert faults threshold source).
Proof.
  i_bind; [i_log|]. i_bind.
  { i_bind; [by i_call | i_ret]. }
  i_for. destruct (is_system _); [i_ret|].
  apply upsert_collection_keeps.
Qed.

(** *** Reserved collections are left alone *)

Section OffSystem.

Variable faults : list event → store_op → bool.
Variable threshold : Z.
Variable source : Database.
Variable c : string.
Hypothesis user_c : is_system c = false.

Abbreviation quiet := (step_inv (grows off_system same_system)).

Lemma call_off_system op : op_coll op = Some c → quiet (call faults op).
Proof. intros Hop. i_call. intros c' Hc'. congruence. Qed.

Lemma call_list_off_system op : op_coll op = None → quiet (call faults op).
Proof. intros Hop. i_call. intros c' Hc'. congruence. Qed.

Lemma insert_same_system (d : Database) docs : same_system d (<[c := docs]> d).
Proof. intros c' Hc'. apply lookup_insert_ne. congruence. Qed.

Lemma delete_same_system (d : Database) : same_system d (delete c d).
Proof. intros c' Hc'. apply lookup_delete_ne. congruence. Qed.

Lemma delete_doc_same_system id (d : Database) : same_system d (delete_doc c id d).
Proof.
  unfold delete_doc. destruct (d !! c); [apply insert_same_system | reflexivity].
Qed.

Lemma src_count_off_system : quiet (src_count_documents faults source c).
Proof. i_bind; [by apply call_off_system | i_ret]. Qed.

Lemma src_find_off_system : quiet (src_find faults source c).
Proof. i_bind; [by apply call_off_system | i_ret]. Qed.

Lemma src_find_ids_off_system : quiet (src_find_ids faults source c).
Proof. i_bind; [by apply call_off_system | i_ret]. Qed.

Lemma src_count_id_off_system id : quiet (src_count_id faults source c id).
Proof. i_bind; [by apply call_off_system | i_ret]. Qed.

Lemma dst_count_off_system : quiet (dst_count_documents faults c).
Proof. i_bind; [by apply call_off_system|]. i_bind; [i_read | i_ret]. Qed.

Lemma dst_find_ids_off_system : quiet (dst_find_ids faults c).
Proof. i_bind; [by apply call_off_system|]. i_bind; [i_read | i_ret]. Qed.

Lemma dst_replace_off_system doc : quiet (dst_replace_one faults c doc).
Proof.
  i_bind; [by apply call_off_system|]. i_write. intros d. apply insert_same_system.
Qed.

Lemma dst_delete_off_system id : quiet (dst_delete_one faults c id).
Proof.
  i_bind; [by apply call_off_system|]. i_write. intros d. apply delete_doc_same_system.
Qed.

Lemma dst_drop_off_system : quiet (dst_drop_collection faults c).
Proof.
  i_bind; [by apply call_off_system|]. i_write. apply delete_same_system.
Qed.

Lemma upsert_collection_off_system : quiet (upsert_collection faults threshold source c).
Proof.
  i_try; [|i_log]. i_bind; [apply src_count_off_system|].
  destruct (_ =? 0); [i_ret|]. i_bind; [i_log|].
  destruct (_ <=? threshold).
  - i_bind; [apply src_find_off_system|]. i_bind; [|i_log].
    i_for. apply dst_replace_off_system.
  - i_bind; [apply src_find_off_system|]. i_for. apply dst_replace_off_system.
Qed.

Lemma reconcile_collection_off_system :
  quiet (reconcile_collection faults threshold source c).
Proof.
  i_bind.
  { i_try.
    - i_bind; [apply src_count_off_system|].
      i_bind; [apply dst_count_off_system | i_ret].
    - i_bind; [i_log | i_ret]. }
  match goal with counts : option (Z * Z) |- _ =>
    destruct counts as [[src_count dst_count]|] end; [|i_ret].
  i_bind; [i_log|]. destruct (_ <=? threshold).
  - i_bind; [apply src_find_ids_off_system|]. simpl.
    i_bind; [apply dst_find_ids_off_system|]. i_bind; [|i_log].
    i_for_counting. destruct (bool_decide _); [i_ret|].
    i_bind; [apply dst_delete_off_system | i_ret].
  - i_bind; [apply dst_find_ids_off_system|]. i_bind; [|i_log].
    i_for_counting. i_bind; [apply src_count_id_off_system|].
    destruct (_ =? 0); [|i_ret].
    i_bind; [apply dst_delete_off_system | i_ret].
Qed.

Lemma drop_stale_off_system : quiet (drop_stale_collection faults c).
Proof. i_try; [|i_log]. i_bind; [i_log | apply dst_drop_off_system]. Qed.

End OffSystem.

Lemma elem_of_user_names (names : list string) c :
  c ∈ (list_to_set (filter (λ c, is_system c = false) names) : gset string) →
  is_system c = false.
Proof. rewrite elem_of_list_to_set, list_elem_of_filter. by intros [? _]. Qed.

Lemma incremental_upsert_off_system faults threshold source :
  step_inv (grows off_system same_system) (incremental_upsert faults threshold source).
Proof.
  i_bind; [i_log|]. i_bind.
  { i_bind; [by apply call_list_off_system | i_ret]. }
  i_for. destruct (is_system _) eqn:Hsys; [i_ret|].
  by apply upsert_collection_off_system.
Qed.

Lemma reconcile_deletions_off_system faults threshold source :
  step_inv (grows off_system same_system) (reconcile_deletions faults threshold source).
Proof.
  i_bind; [i_log|]. i_try; [|i_log].
  i_bind. { i_bind; [by apply call_list_off_system | i_ret]. }
  i_bind. { i_bind; [by apply call_list_off_system|]. i_bind; [i_read | i_ret]. }
  simpl. i_bind.
  - i_for. apply drop_stale_off_system.
    match goal with H : _ ∈ elements _ |- _ =>
      apply elem_of_elements, elem_of_difference in H as [H _];
      by apply elem_of_user_names in H end.
  - i_for. apply reconcile_collection_off_system.
    match goal with H : _ ∈ elements _ |- _ =>
      apply elem_of_elements, elem_of_intersection in H as [H _];
      by apply elem_of_user_names in H end.
Qed.

Lemma sync_destination_off_system faults threshold source :
  step_inv (grows off_system same_system) (sync_destination faults threshold source).
Proof.
  i_bind; [apply incremental_upsert_off_system | apply reconcile_deletions_off_system].
Qed.

Lemma main_loop_off_system faults threshold source dsts tr :
  let r := main_loop faults threshold source dsts tr in
  (∃ evs, r.2.2 = tr ++ evs ∧ Forall off_system evs) ∧ Forall2 same_system dsts r.2.1.
Proof.
  revert tr. induction dsts as [|d dsts IH]; intros tr; simpl.
  - split; [|constructor]. exists []. by rewrite app_nil_r.
  - pose proof (sync_destination_off_system faults threshold source (World d tr)) as H.
    destruct (sync_destination _ _ _ _) as [[[]|] w]; simpl in H;
      destruct H as [Hsys (e1 & He1 & HP1)].
    + specialize (IH (trace w)).
      destruct (main_loop _ _ _ _ _) as [o [rest' tr']]. simpl in *.
      destruct IH as [(e2 & He2 & HP2) Hrest]. split.
      * exists (e1 ++ e2). split; [by rewrite He2, He1, app_assoc | by apply Forall_app].
      * by constructor.
    + simpl. split; [eauto|]. constructor; [done|].
      apply Forall2_same_length_lookup_2; [done|].
      intros i x y Hx Hy. rewrite Hx in Hy. injection Hy as ->. reflexivity.
Qed.

(** ** Blocks without a handler *)

Section Straight.

Context (P : event → Prop).

Lemma straight_ret {A} (a : A) : straight P (ret a).
Proof.
  intros w. exists []. simpl. rewrite app_nil_r. repeat split; constructor.
Qed.

Lemma straight_bind {A B} (m : M A) (k : A → M B) :
  straight P m → (∀ a, straight P (k a)) → straight P (bind m k).
Proof.
  intros Hm Hk w. unfold bind. destruct (Hm w) as (e1 & He1 & HP1 & Ho1).
  destruct (m w) as [[a|] w1]; simpl in *.
  - destruct (Hk a w1) as (e2 & He2 & HP2 & Ho2).
    exists (e1 ++ e2). split; [by rewrite He2, He1, app_assoc|].
    split; [by apply Forall_app|].
    destruct (k a w1) as [[b|] w2]; simpl in *.
    + by apply Forall_app.
    + destruct Ho2 as (e0 & op & -> & Hok). exists (e1 ++ e0), op.
      split; [by rewrite app_assoc | by apply Forall_app].
  - exists e1. done.
Qed.

Lemma straight_for_each {A} (l : list A) (body : A → M unit) :
  (∀ x, straight P (body x)) → straight P (for_each l body).
Proof.
  intros Hbody. induction l as [|x l IH]; simpl.
  - apply straight_ret.
  - apply straight_bind; [apply Hbody | by intros _].
Qed.

Lemma straight_for_each_counting {A} (l : list A) (body : A → nat → M nat) n :
  (∀ x k, straight P (body x k)) → straight P (for_each_counting l body n).
Proof.
  intros Hbody. revert n. induction l as [|x l IH]; intros n; simpl.
  - apply straight_ret.
  - apply straight_bind; [apply Hbody | apply IH].
Qed.

Lemma straight_log entry : P (Log entry) → straight P (log entry).
Proof.
  intros HP w. exists [Log entry]. split; [done|].
  split; by apply Forall_singleton.
Qed.

Lemma straight_read : straight P read_dest.
Proof.
  intros w. exists []. simpl. rewrite app_nil_r. repeat split; constructor.
Qed.

Lemma straight_write f : straight P (write_dest f).
Proof.
  intros w. exists []. simpl. rewrite app_nil_r. repeat split; constructor.
Qed.

Lemma straight_call faults op :
  (∀ b, P (Call op b)) → straight P (call faults op).
Proof.
  intros HP w. unfold call. destruct (faults _ _); simpl.
  - exists [Call op true]. split; [done|]. split; [by apply Forall_singleton|].
    exists [], op. split; [done | constructor].
  - exists [Call op false]. split; [done|]. split; by apply Forall_singleton.
Qed.

End Straight.

Ltac s_bind := apply straight_bind; [| intros ?].
Ltac s_call := apply straight_call; intros ?; simpl; try done.
Ltac s_log := apply straight_log; simpl; try done.

Section StraightOps.

Variable faults : list event → store_op → bool.
Variable source : Database.
Variable c : string.
Variable P : event → Prop.
Hypothesis P_call : ∀ op b, op_coll op = Some c → is_data op = true → P (Call op b).
Hypothesis P_log : ∀ entry, P (Log entry).

Lemma straight_src_find : straight P (src_find faults source c).
Proof. s_bind; [s_call; by apply P_call | apply straight_ret]. Qed.

Lemma straight_src_find_ids : straight P (src_find_ids faults source c).
Proof. s_bind; [s_call; by apply P_call | apply straight_ret]. Qed.

Lemma straight_src_count_id id : straight P (src_count_id faults source c id).
Proof. s_bind; [s_call; by apply P_call | apply straight_ret]. Qed.

Lemma straight_dst_find_ids : straight P (dst_find_ids faults c).
Proof.
  s_bind; [s_call; by apply P_call|]. s_bind; [apply straight_read | apply straight_ret].
Qed.

Lemma straight_dst_replace_one doc : straight P (dst_replace_one faults c doc).
Proof. s_bind; [s_call; by apply P_call | apply straight_write]. Qed.

Lemma straight_dst_delete_one id : straight P (dst_delete_one faults c id).
Proof. s_bind; [s_call; by apply P_call | apply straight_write]. Qed.

Lemma straight_upsert_materialize : straight P (upsert_materialize faults source c).
Proof.
  s_bind; [apply straight_src_find|]. s_bind; [|by s_log].
  apply straight_for_each. intros doc. apply straight_dst_replace_one.
Qed.

Lemma straight_upsert_stream : straight P (upsert_stream faults source c).
Proof.
  s_bind; [apply straight_src_find|].
  apply straight_for_each. intros doc. apply straight_dst_replace_one.
Qed.

Lemma straight_reconcile_materialize : straight P (reconcile_materialize faults source c).
Proof.
  s_bind; [apply straight_src_find_ids|]. simpl.
  s_bind; [apply straight_dst_find_ids|]. s_bind; [|by s_log].
  apply straight_for_each_counting. intros id k.
  destruct (bool_decide _); [apply straight_ret|].
  s_bind; [apply straight_dst_delete_one | apply straight_ret].
Qed.

Lemma straight_reconcile_stream : straight P (reconcile_stream faults source c).
Proof.
  s_bind; [apply straight_dst_find_ids|]. s_bind; [|by s_log].
  apply straight_for_each_counting. intros id k.
  s_bind; [apply straight_src_count_id|].
  destruct (_ =? 0); [|apply straight_ret].
  s_bind; [apply straight_dst_delete_one | apply straight_ret].
Qed.

End StraightOps.

(** ** Store errors in the upsert phase *)

Lemma failures_logged_clean evs :
  Forall (λ e, is_failure e = false) evs → failures_logged evs = true.
Proof.
  induction 1 as [|e evs He _ IH]; [done|].
  destruct e as [op [|]|entry]; simpl in *; done.
Qed.

Lemma failures_logged_app e1 e2 :
  failures_logged e1 = true → failures_logged e2 = true →
  failures_logged (e1 ++ e2) = true.
Proof.
  intros H1 H2. induction e1 as [|e e1 IH]; [done|].
  destruct e as [op [|]|entry]; simpl in *; [|by apply IH..].
  apply andb_true_iff in H1 as [Hhd H1]. apply andb_true_iff. split; [|by apply IH].
  destruct (op_coll op) as [c|]; [|done].
  apply bool_decide_eq_true in Hhd. apply bool_decide_eq_true.
  by destruct e1.
Qed.

Lemma failures_logged_raised evs0 op c :
  Forall (λ e, is_failure e = false) evs0 → op_coll op = Some c →
  failures_logged (evs0 ++ [Call op true; Log (ErrorProcessing c)]) = true.
Proof.
  intros Hok Hop. apply failures_logged_app; [by apply failures_logged_clean|].
  simpl. rewrite Hop. by rewrite bool_decide_eq_true_2.
Qed.

Lemma world_eta w : w = World (dest w) (trace w).
Proof. by destruct w. Qed.

(** The count of the source collection, then the rest of the block. *)
Lemma src_count_step {B} faults source c (k : Z → M B) w :
  bind (src_count_documents faults source c) k w
  = if faults (trace w) (CountSource c)
    then (Raised, emit (Call (CountSource c) true) w)
    else k (Z.of_nat (size (coll_of source c))) (emit (Call (CountSource c) false) w).
Proof.
  unfold src_count_documents, bind, call. by destruct (faults _ _).
Qed.

(** One collection: the count is attempted, whatever raises is caught and
    logged, and the block returns. *)
Lemma upsert_collection_segment faults threshold source c w :
  ∃ b evs d',
    upsert_collection faults threshold source c w
    = (Done tt, World d' (trace w ++ Call (CountSource c) b :: evs))
    ∧ failures_logged (Call (CountSource c) b :: evs) = true.
Proof.
  assert (Hk : ∀ n : Z, straight (on_coll c)
            (if n =? 0 then ret tt
             else bind (log (Processing c n)) (λ _,
                    if n <=? threshold
                    then upsert_materialize faults source c
                    else upsert_stream faults source c))).
  { intros n. destruct (n =? 0); [apply straight_ret|].
    s_bind; [by s_log|]. destruct (n <=? threshold).
    - by apply straight_upsert_materialize.
    - by apply straight_upsert_stream. }
  unfold upsert_collection, try_except. rewrite src_count_step.
  destruct (faults (trace w) (CountSource c)).
  - exists true, [Log (ErrorProcessing c)], (dest w). split.
    + unfold log, emit. simpl. by rewrite <- app_assoc.
    + simpl. by rewrite bool_decide_eq_true_2.
  - set (w1 := emit (Call (CountSource c) false) w).
    destruct (Hk (Z.of_nat (size (coll_of source c))) w1) as (evs & Hevs & HP & Ho).
    destruct (_ w1) as [[[]|] w2]; simpl in *.
    + exists false, evs, (dest w2). split.
      * rewrite (world_eta w2) at 1. by rewrite Hevs, <- app_assoc.
      * by apply failures_logged_clean.
    + destruct Ho as (evs0 & op & -> & Hok).
      exists false, (evs0 ++ [Call op true; Log (ErrorProcessing c)]), (dest w2).
      split.
      * unfold log, emit. simpl. rewrite Hevs.
        by rewrite <- !app_assoc.
      * rewrite Forall_app, Forall_singleton in HP. destruct HP as [_ Hop].
        by apply failures_logged_raised.
Qed.

Lemma upsert_loop_segments faults threshold source names w :
  ∃ evs d',
    for_each names (λ coll_name,
      if is_system coll_name then ret tt
      else upsert_collection faults threshold source coll_name) w
    = (Done tt, World d' (trace w ++ evs))
    ∧ failures_logged evs = true
    ∧ ∀ c, c ∈ names → is_system c = false → ∃ b, Call (CountSource c) b ∈ evs.
Proof.
  revert w. induction names as [|c0 names IH]; intros w; simpl.
  - exists [], (dest w). rewrite app_nil_r. split; [by destruct w|].
    split; [done|]. intros c Hc. by apply elem_of_nil in Hc.
  - unfold bind at 1. destruct (is_system c0) eqn:Hsys.
    + simpl. destruct (IH w) as (evs & d' & -> & Hlog & Hatt).
      exists evs, d'. split; [done|]. split; [done|].
      intros c [->|Hc]%elem_of_cons Hc'; [congruence | by apply Hatt].
    + destruct (upsert_collection_segment faults threshold source c0 w)
        as (b & e1 & d1 & -> & Hlog1).
      destruct (IH (World d1 (trace w ++ Call (CountSource c0) b :: e1)))
        as (e2 & d2 & -> & Hlog2 & Hatt).
      simpl. exists ((Call (CountSource c0) b :: e1) ++ e2), d2.
      split; [by rewrite app_assoc|]. split; [by apply failures_logged_app|].
      intros c [->|Hc]%elem_of_cons Hc'.
      * exists b. apply elem_of_app. left. apply list_elem_of_here.
      * destruct (Hatt c Hc Hc') as [b' Hb']. exists b'.
        apply elem_of_app. by right.
Qed.

(** ** Store errors in the reconciliation phase *)

Lemma handled_clean abort evs :
  Forall (λ e, is_failure e = false) evs → handled abort evs = true.
Proof.
  induction 1 as [|e evs He _ IH]; [done|].
  destruct e as [op [|]|entry]; simpl in *; done.
Qed.

Lemma handled_weaken evs : handled false evs = true → handled true evs = true.
Proof.
  induction evs as [|e evs IH]; [done|].
  destruct e as [op [|]|entry]; simpl; [|done..].
  intros [Hop Hrest]%andb_true_iff. apply andb_true_iff. split; [|by apply IH].
  by destruct op.
Qed.

Lemma count_failed_on_cons c e evs :
  count_failed_on c evs → count_failed_on c (e :: evs).
Proof. intros [?|?]; [left | right]; by apply list_elem_of_further. Qed.

Lemma handled_app abort e1 e2 :
  handled false e1 = true → handled abort e2 = true →
  (∀ c, count_failed_on c e1 → forallb (λ e, negb (is_call_on c e)) e2 = true) →
  handled abort (e1 ++ e2) = true.
Proof.
  intros H1 H2. induction e1 as [|e e1 IH]; intros Hcross; [done|].
  assert (IH' : handled abort (e1 ++ e2) = true → handled abort (e1 ++ e2) = true)
    by done.
  destruct e as [op [|]|entry]; simpl in *;
    [|apply IH; [done|]; intros c Hc; by apply Hcross, count_failed_on_cons..].
  apply andb_true_iff in H1 as [Hop H1]. apply andb_true_iff. split.
  - destruct op as [| |c|c| | | | | | |c]; simpl in *; try done.
    + apply andb_true_iff in Hop as [Hhd Hoff]. apply andb_true_iff. split.
      * apply bool_decide_eq_true in Hhd. apply bool_decide_eq_true. by destruct e1.
      * rewrite forallb_app, Hoff. simpl. apply Hcross. left. apply list_elem_of_here.
    + apply andb_true_iff in Hop as [Hhd Hoff]. apply andb_true_iff. split.
      * apply bool_decide_eq_true in Hhd. apply bool_decide_eq_true. by destruct e1.
      * rewrite forallb_app, Hoff. simpl. apply Hcross. right. apply list_elem_of_here.
    + apply bool_decide_eq_true in Hop. apply bool_decide_eq_true. by destruct e1.
  - apply IH; [done|]. intros c Hc. by apply Hcross, count_failed_on_cons.
Qed.

(** A trace of calls on other collections has no call on [c]. *)
Lemma on_colls_off c l evs :
  c ∉ l → Forall (on_colls l) evs →
  forallb (λ e, negb (is_call_on c e)) evs = true.
Proof.
  intros Hc. induction 1 as [|e evs He _ IH]; [done|]. simpl.
  rewrite IH, andb_true_r. destruct e as [op b|entry]; [|done]. simpl in *.
  destruct He as (c' & Hc' & Hop). rewrite bool_decide_eq_false_2; [done|].
  rewrite Hop. intros [= ->]. done.
Qed.

Lemma on_coll_count_failed c c' evs :
  Forall (on_coll c) evs → count_failed_on c' evs → c' = c.
Proof.
  intros Hall [Hin|Hin]; eapply Forall_forall in Hin; [|exact Hall| |exact Hall];
    simpl in Hin; congruence.
Qed.

Lemma drop_or_log_count_failed c evs :
  Forall drop_or_log evs → count_failed_on c evs → False.
Proof.
  intros Hall [Hin|Hin]; eapply Forall_forall in Hin; [|exact Hall| |exact Hall]; done.
Qed.

Lemma clean_count_failed c evs :
  Forall (λ e, is_failure e = false) evs → count_failed_on c evs → False.
Proof.
  intros Hall [Hin|Hin]; eapply Forall_forall in Hin; [|exact Hall| |exact Hall]; done.
Qed.

Lemma on_coll_on_colls c l e : c ∈ l → on_coll c e → on_colls l e.
Proof. intros Hc. destruct e; simpl; eauto. Qed.

Lemma on_colls_cons c l e : on_colls l e → on_colls (c :: l) e.
Proof.
  destruct e; simpl; [|done]. intros (c' & ? & ?). exists c'.
  split; [by apply list_elem_of_further | done].
Qed.

Lemma data_on_on_coll c e : data_on c e → on_coll c e.
Proof. destruct e; simpl; [by intros [? _] | done]. Qed.

(** The two counts of a collection pair, inside their own [try]. *)
Lemma count_pair_step faults source c w :
  try_except
    (bind (src_count_documents faults source c) (λ src_count,
       bind (dst_count_documents faults c) (λ dst_count,
         ret (Some (src_count, dst_count)))))
    (bind (log (CountError c)) (λ _, ret None)) w
  = if faults (trace w) (CountSource c)
    then (Done None,
          World (dest w) (trace w ++ [Call (CountSource c) true; Log (CountError c)]))
    else if faults (trace w ++ [Call (CountSource c) false]) (CountDest c)
    then (Done None,
          World (dest w) (trace w ++ [Call (CountSource c) false;
                                      Call (CountDest c) true; Log (CountError c)]))
    else (Done (Some (Z.of_nat (size (coll_of source c)),
                      Z.of_nat (size (coll_of (dest w) c)))),
          World (dest w) (trace w ++ [Call (CountSource c) false;
                                      Call (CountDest c) false])).
Proof.
  unfold try_except. rewrite src_count_step.
  destruct (faults (trace w) (CountSource c)).
  - unfold bind, log, ret, emit. simpl. by rewrite <- app_assoc.
  - unfold dst_count_documents, bind, call, read_dest, log, ret, emit. simpl.
    destruct (faults _ (CountDest c)); simpl; by rewrite <- !app_assoc.
Qed.

(** One collection pair, by what the counts do: a count that raises is
    logged and the pair is left as it is; otherwise the documents are
    reconciled by the strategy the source count selects. *)
Lemma reconcile_collection_step faults threshold source c w :
  reconcile_collection faults threshold source c w
  = if faults (trace w) (CountSource c)
    then (Done tt,
          World (dest w) (trace w ++ [Call (CountSource c) true; Log (CountError c)]))
    else if faults (trace w ++ [Call (CountSource c) false]) (CountDest c)
    then (Done tt,
          World (dest w) (trace w ++ [Call (CountSource c) false;
                                      Call (CountDest c) true; Log (CountError c)]))
    else (if Z.of_nat (size (coll_of source c)) <=? threshold
          then reconcile_materialize faults source c
          else reconcile_stream faults source c)
           (World (dest w)
              (trace w ++ [Call (CountSource c) false; Call (CountDest c) false;
                           Log (Reconciling c (Z.of_nat (size (coll_of source c)))
                                  (Z.of_nat (size (coll_of (dest w) c))))])).
Proof.
  unfold reconcile_collection. unfold bind at 1. rewrite count_pair_step.
  destruct (faults (trace w) (CountSource c)); [done|].
  destruct (faults _ (CountDest c)); [done|].
  unfold bind at 1, log, emit. simpl. by rewrite <- app_assoc.
Qed.

(** One collection pair: its events are calls on that pair, starting with
    the count of the source; either the block returns with every error
    handled, or a document-level call raised and ends the block. *)
Lemma reconcile_collection_segment faults threshold source c w :
  let r := reconcile_collection faults threshold source c w in
  ∃ b evs,
    trace r.2 = trace w ++ Call (CountSource c) b :: evs
    ∧ Forall (on_coll c) (Call (CountSource c) b :: evs)
    ∧ match r.1 with
      | Done _ => handled false (Call (CountSource c) b :: evs) = true
      | Raised =>
          handled true ((Call (CountSource c) b :: evs) ++ [Log MongoError]) = true
          ∧ ∃ op, Call op true ∈ evs ∧ is_skippable op = false
      end.
Proof.
  assert (Hk : ∀ n : Z, straight (data_on c)
            (if n <=? threshold
             then reconcile_materialize faults source c
             else reconcile_stream faults source c)).
  { intros n. destruct (n <=? threshold).
    - by apply straight_reconcile_materialize.
    - by apply straight_reconcile_stream. }
  simpl. rewrite reconcile_collection_step.
  destruct (faults (trace w) (CountSource c)); simpl.
  { exists true, [Log (CountError c)]. split; [done|]. split.
    - by repeat constructor.
    - simpl. by rewrite bool_decide_eq_true_2. }
  destruct (faults _ (CountDest c)); simpl.
  { exists false, [Call (CountDest c) true; Log (CountError c)]. split; [done|]. split.
    - by repeat constructor.
    - simpl. by rewrite bool_decide_eq_true_2. }
  set (n_src := Z.of_nat (size (coll_of source c))).
  set (n_dst := Z.of_nat (size (coll_of (dest w) c))).
  set (w1 := World _ _).
  destruct (Hk n_src w1) as (evs & Hevs & HP & Ho).
  assert (Hon : Forall (on_coll c) evs).
  { eapply Forall_impl; [exact HP|]. apply data_on_on_coll. }
  exists false, (Call (CountDest c) false :: Log (Reconciling c n_src n_dst) :: evs).
  split; [|split].
  - rewrite Hevs. unfold w1. simpl. by rewrite <- !app_assoc.
  - by repeat constructor.
  - destruct (_ w1) as [[[]|] w2]; simpl in *.
    + by apply handled_clean.
    + destruct Ho as (evs0 & op & -> & Hok).
      rewrite Forall_app, Forall_singleton in HP. destruct HP as [_ [Hc Hdata]].
      split.
      * rewrite <- app_assoc. apply (handled_app true); [by apply handled_clean| |].
        -- simpl. rewrite andb_true_r. by destruct op.
        -- intros c' Hc'. by destruct (clean_count_failed _ _ Hok Hc').
      * exists op. split.
        -- do 2 apply list_elem_of_further. apply elem_of_app. right.
           apply list_elem_of_here.
        -- by destruct op.
Qed.

Lemma reconcile_loop_segments faults threshold source l w o w' :
  NoDup l →
  for_each l (reconcile_collection faults threshold source) w = (o, w') →
  ∃ evs,
    trace w' = trace w ++ evs
    ∧ Forall (on_colls l) evs
    ∧ match o with
      | Done _ =>
          handled false evs = true
          ∧ ∀ c, c ∈ l → ∃ b, Call (CountSource c) b ∈ evs
      | Raised =>
          handled true (evs ++ [Log MongoError]) = true
          ∧ ∃ op, Call op true ∈ evs ∧ is_skippable op = false
      end.
Proof.
  revert w. induction l as [|c0 l IH]; intros w Hnd Heq; simpl in Heq.
  - injection Heq as <- <-. exists []. rewrite app_nil_r.
    split; [done|]. split; [constructor|]. split; [done|].
    intros c Hc. by apply elem_of_nil in Hc.
  - apply NoDup_cons in Hnd as [Hc0 Hnd]. unfold bind in Heq.
    pose proof (reconcile_collection_segment faults threshold source c0 w) as Hseg.
    simpl in Hseg. destruct (reconcile_collection _ _ _ c0 w) as [[[]|] w1].
    + destruct Hseg as (b & e1 & He1 & Hon1 & Hh1). simpl in *.
      destruct (IH _ Hnd Heq) as (e2 & He2 & Hon2 & Ho).
      assert (Hoff : ∀ c, count_failed_on c (Call (CountSource c0) b :: e1) →
                forallb (λ e, negb (is_call_on c e)) e2 = true).
      { intros c Hc. rewrite (on_coll_count_failed _ _ _ Hon1 Hc).
        by apply (on_colls_off _ l). }
      exists ((Call (CountSource c0) b :: e1) ++ e2).
      split; [by rewrite He2, He1, app_assoc|]. split.
      { apply Forall_app. split.
        - eapply Forall_impl; [exact Hon1|]. intros e.
          apply on_coll_on_colls, list_elem_of_here.
        - eapply Forall_impl; [exact Hon2|]. intros e. apply on_colls_cons. }
      destruct o as [[]|].
      * destruct Ho as [Hh2 Hatt]. split; [by apply handled_app|].
        intros c [->|Hc]%elem_of_cons.
        -- exists b. apply elem_of_app. left. apply list_elem_of_here.
        -- destruct (Hatt c Hc) as [b' Hb']. exists b'. apply elem_of_app. by right.
      * destruct Ho as [Hh2 (op & Hop & Hskip)]. split.
        -- rewrite <- app_assoc. apply handled_app; [done..|].
           intros c Hc. rewrite forallb_app, (Hoff c Hc). done.
        -- exists op. split; [|done]. apply elem_of_app. by right.
    + injection Heq as <- <-. simpl in *.
      destruct Hseg as (b & e1 & He1 & Hon1 & Hh1 & op & Hop & Hskip).
      exists (Call (CountSource c0) b :: e1). split; [done|]. split.
      { eapply Forall_impl; [exact Hon1|]. intros e.
        apply on_coll_on_colls, list_elem_of_here. }
      split; [done|]. exists op. split; [by apply list_elem_of_further | done].
Qed.

(** One stale collection: dropped, or the failure to drop it logged. *)
Lemma drop_stale_collection_step faults c w :
  drop_stale_collection faults c w
  = if faults (trace w ++ [Log (Dropping c)]) (DropCollection c)
    then (Done tt,
          World (dest w) (trace w ++ [Log (Dropping c); Call (DropCollection c) true;
                                      Log (FailedDrop c)]))
    else (Done tt,
          World (delete c (dest w))
                (trace w ++ [Log (Dropping c); Call (DropCollection c) false])).
Proof.
  unfold drop_stale_collection, try_except, dst_drop_collection, bind, call, log,
    write_dest, emit. simpl.
  destruct (faults _ _); simpl; by rewrite <- !app_assoc.
Qed.

Lemma drop_loop_segments faults l w :
  ∃ evs d',
    for_each l (drop_stale_collection faults) w = (Done tt, World d' (trace w ++ evs))
    ∧ Forall drop_or_log evs ∧ handled false evs = true.
Proof.
  revert w. induction l as [|c l IH]; intros w; simpl.
  - exists [], (dest w). rewrite app_nil_r. split; [by destruct w|].
    split; [constructor | done].
  - unfold bind. rewrite drop_stale_collection_step.
    destruct (faults _ _).
    + destruct (IH (World (dest w) (trace w ++ [Log (Dropping c);
                 Call (DropCollection c) true; Log (FailedDrop c)])))
        as (e2 & d2 & -> & Hd2 & Hh2). simpl.
      exists ([Log (Dropping c); Call (DropCollection c) true; Log (FailedDrop c)] ++ e2), d2.
      split; [by rewrite app_assoc|]. split.
      * apply Forall_app. split; [by repeat constructor | done].
      * simpl. by rewrite bool_decide_eq_true_2.
    + destruct (IH (World (delete c (dest w)) (trace w ++ [Log (Dropping c);
                 Call (DropCollection c) false])))
        as (e2 & d2 & -> & Hd2 & Hh2). simpl.
      exists ([Log (Dropping c); Call (DropCollection c) false] ++ e2), d2.
      split; [by rewrite app_assoc|]. split.
      * apply Forall_app. split; [by repeat constructor | done].
      * done.
Qed.

(** The phase, by what the two listings do. *)
Lemma reconcile_deletions_step faults threshold source w :
  reconcile_deletions faults threshold source w
  = if faults (trace w ++ [Log StartingReconciliation]) ListSource
    then (Done tt,
          World (dest w) (trace w ++ [Log StartingReconciliation;
                                      Call ListSource true; Log MongoError]))
    else if faults (trace w ++ [Log StartingReconciliation; Call ListSource false])
                   ListDest
    then (Done tt,
          World (dest w) (trace w ++ [Log StartingReconciliation;
                                      Call ListSource false; Call ListDest true;
                                      Log MongoError]))
    else try_except
           (bind (for_each (elements (user_collections (dest w)
                                      ∖ user_collections source))
                           (drop_stale_collection faults)) (λ _,
              for_each (elements (user_collections (dest w)
                                  ∩ user_collections source))
                       (reconcile_collection faults threshold source)))
           (log MongoError)
           (World (dest w) (trace w ++ [Log StartingReconciliation;
                                        Call ListSource false; Call ListDest false])).
Proof.
  unfold reconcile_deletions. unfold bind at 1. unfold log at 1. simpl.
  unfold try_except at 1. unfold bind at 1. unfold src_list_collection_names.
  unfold bind at 1. unfold call at 1. simpl.
  destruct (faults _ ListSource).
  { unfold log, emit. simpl. by rewrite <- !app_assoc. }
  unfold ret at 1. unfold bind at 1. unfold dst_list_collection_names.
  unfold bind at 1. unfold call at 1. simpl. rewrite <- app_assoc. simpl.
  destruct (faults _ ListDest).
  { unfold log, emit. simpl. by rewrite <- !app_assoc. }
  unfold bind at 1. unfold read_dest at 1. unfold ret at 1.
  unfold emit. simpl. rewrite <- !app_assoc. simpl. reflexivity.
Qed.

(** ** A second pass changes nothing *)

Lemma synced_idem source (d : Database) : synced source (synced source d) = synced source d.
Proof.
  apply map_eq. intros c. rewrite !synced_lookup. unfold synced_at.
  rewrite synced_lookup. unfold synced_at.
  destruct (is_system c); [done|].
  destruct (source !! c) as [sdocs|]; [|done].
  destruct (decide (sdocs = ∅)); [|done]. by destruct (d !! c).
Qed.

(** ** The two phases, by what their first store calls do *)

Lemma upsert_collection_step faults threshold source c w :
  upsert_collection faults threshold source c w
  = if faults (trace w) (CountSource c)
    then (Done tt,
          World (dest w) (trace w ++ [Call (CountSource c) true;
                                      Log (ErrorProcessing c)]))
    else if Z.of_nat (size (coll_of source c)) =? 0
    then (Done tt, emit (Call (CountSource c) false) w)
    else try_except
           (bind (log (Processing c (Z.of_nat (size (coll_of source c))))) (λ _,
              if Z.of_nat (size (coll_of source c)) <=? threshold
              then upsert_materialize faults source c
              else upsert_stream faults source c))
           (log (ErrorProcessing c))
           (emit (Call (CountSource c) false) w).
Proof.
  unfold upsert_collection. unfold try_except at 1. rewrite src_count_step.
  destruct (faults (trace w) (CountSource c)).
  - unfold log, emit. simpl. by rewrite <- app_assoc.
  - by destruct (_ =? 0).
Qed.

Lemma incremental_upsert_step faults threshold source w :
  incremental_upsert faults threshold source w
  = if faults (trace w ++ [Log StartingUpsert]) ListSource
    then (Raised,
          World (dest w) (trace w ++ [Log StartingUpsert; Call ListSource true]))
    else for_each (elements (dom source)) (λ coll_name,
           if is_system coll_name then ret tt
           else upsert_collection faults threshold source coll_name)
           (World (dest w) (trace w ++ [Log StartingUpsert; Call ListSource false])).
Proof.
  unfold incremental_upsert. unfold bind at 1. unfold log at 1. simpl.
  unfold bind at 1. unfold src_list_collection_names. unfold bind at 1.
  unfold call at 1. simpl.
  destruct (faults _ ListSource); unfold emit; simpl; by rewrite <- app_assoc.
Qed.

Lemma reconcile_deletions_segments faults threshold source w o w' :
  reconcile_deletions faults threshold source w = (o, w') →
  o = Done tt
  ∧ ∃ evs,
      trace w' = trace w ++ evs
      ∧ errors_handled evs = true
      ∧ ((∀ op, Call op true ∈ evs → is_skippable op = true) →
         ∀ c, c ∈ user_collections (dest w) ∩ user_collections source →
              ∃ b, Call (CountSource c) b ∈ evs).
Proof.
  rewrite reconcile_deletions_step.
  destruct (faults _ ListSource).
  { intros [= <- <-]. split; [done|]. eexists. split; [done|]. split; [done|].
    intros Hall. exfalso.
    assert (is_skippable ListSource = true); [|done].
    apply Hall. apply list_elem_of_further, list_elem_of_here. }
  destruct (faults _ ListDest).
  { intros [= <- <-]. split; [done|]. eexists. split; [done|]. split; [done|].
    intros Hall. exfalso.
    assert (is_skippable ListDest = true); [|done].
    apply Hall. do 2 apply list_elem_of_further. apply list_elem_of_here. }
  set (pre := [Log StartingReconciliation; Call ListSource false; Call ListDest false]).
  set (w2 := World _ _).
  destruct (drop_loop_segments faults
              (elements (user_collections (dest w) ∖ user_collections source)) w2)
    as (e_d & d3 & Hd & Hdrop & Hhd).
  unfold try_except, bind. rewrite Hd.
  destruct (for_each _ (reconcile_collection faults threshold source) _)
    as [o2 w4] eqn:Hp.
  apply reconcile_loop_segments in Hp as (e_p & He_p & Hon & Ho2);
    [|apply NoDup_elements]. simpl in He_p.
  assert (Hpre : Forall (λ e, is_failure e = false) pre) by (by repeat constructor).
  destruct o2 as [[]|].
  - destruct Ho2 as [Hhp Hatt]. intros [= <- <-]. split; [done|].
    exists (pre ++ e_d ++ e_p). split; [by rewrite He_p, <- !app_assoc|]. split.
    + apply handled_weaken, handled_app; [by apply handled_clean| |].
      * apply handled_app; [done..|].
        intros c Hc. by destruct (drop_or_log_count_failed _ _ Hdrop Hc).
      * intros c Hc. by destruct (clean_count_failed _ _ Hpre Hc).
    + intros _ c Hc. apply elem_of_elements in Hc.
      destruct (Hatt c Hc) as [b Hb]. exists b.
      apply elem_of_app. right. apply elem_of_app. by right.
  - destruct Ho2 as [Hhp (op & Hop & Hskip)]. unfold log, emit. simpl.
    intros [= <- <-]. split; [done|].
    exists (pre ++ e_d ++ e_p ++ [Log MongoError]).
    split; [by rewrite He_p, <- !app_assoc|]. split.
    + apply handled_app; [by apply handled_clean| |].
      * apply handled_app; [done..|].
        intros c Hc. by destruct (drop_or_log_count_failed _ _ Hdrop Hc).
      * intros c Hc. by destruct (clean_count_failed _ _ Hpre Hc).
    + intros Hall. exfalso.
      assert (is_skippable op = true); [|congruence].
      apply Hall. do 3 apply list_elem_of_further.
      apply elem_of_app. right. apply elem_of_app. by left.
Qed.

(** Thresholds that force one strategy for every collection. *)
Lemma negative_threshold_streams count threshold :
  0 ≤ count → threshold < 0 → select_strategy count threshold = STREAM.
Proof. intros. unfold select_strategy. destruct (decide _); [lia | done]. Qed.

Lemma large_threshold_materializes count threshold :
  count ≤ threshold → select_strategy count threshold = MATERIALIZE.
Proof. intros. unfold select_strategy. by destruct (decide _). Qed.

(** ** A pass over a destination that is already in sync

    Whatever store calls raise, nothing is written that was not there and
    nothing is removed. *)

Section Keeps.

Context (J : world → Prop).

Lemma keeps_ret {A} (a : A) (Φ : A → Prop) : Φ a → keeps J (ret a) Φ.
Proof. intros Ha w Hw. simpl. split; [done|]. by intros a' [= <-]. Qed.

Lemma keeps_bind {A B} (m : M A) (k : A → M B) (Φ : A → Prop) (Ψ : B → Prop) :
  keeps J m Φ → (∀ a, Φ a → keeps J (k a) Ψ) → keeps J (bind m k) Ψ.
Proof.
  intros Hm Hk w Hw. unfold bind. destruct (Hm w Hw) as [HJ Ha].
  destruct (m w) as [[a|] w1]; simpl in *.
  - apply Hk; [by apply Ha | done].
  - split; [done|]. by intros b.
Qed.

Lemma keeps_try {A} (m h : M A) (Φ : A → Prop) :
  keeps J m Φ → keeps J h Φ → keeps J (try_except m h) Φ.
Proof.
  intros Hm Hh w Hw. unfold try_except. destruct (Hm w Hw) as [HJ Ha].
  destruct (m w) as [[a|] w1]; simpl in *.
  - split; [done|]. intros a' [= <-]. by apply Ha.
  - by apply Hh.
Qed.

Lemma keeps_weaken {A} (m : M A) (Φ Ψ : A → Prop) :
  keeps J m Φ → (∀ a, Φ a → Ψ a) → keeps J m Ψ.
Proof.
  intros Hm Himp w Hw. destruct (Hm w Hw) as [HJ Ha].
  split; [done|]. intros a Hdone. by apply Himp, Ha.
Qed.

Lemma keeps_for_each {A} (l : list A) (body : A → M unit) :
  (∀ x, x ∈ l → keeps J (body x) (λ _, True)) →
  keeps J (for_each l body) (λ _, True).
Proof.
  induction l as [|x l IH]; intros Hbody; simpl.
  - by apply keeps_ret.
  - eapply keeps_bind.
    + apply Hbody, list_elem_of_here.
    + intros _ _. apply IH. intros y Hy. by apply Hbody, list_elem_of_further.
Qed.

Lemma keeps_for_each_counting {A} (l : list A) (body : A → nat → M nat) n :
  (∀ x k, x ∈ l → keeps J (body x k) (λ _, True)) →
  keeps J (for_each_counting l body n) (λ _, True).
Proof.
  revert n. induction l as [|x l IH]; intros n Hbody; simpl.
  - by apply keeps_ret.
  - eapply keeps_bind.
    + apply Hbody, list_elem_of_here.
    + intros n' _. apply IH. intros y k Hy. by apply Hbody, list_elem_of_further.
Qed.

End Keeps.

Section InSync.

Variable faults : list event → store_op → bool.
Variable threshold : Z.
Variables source d : Database.
Variable tr0 : list event.
Hypothesis d_in_sync : in_sync source d.

Abbreviation J := (still d tr0).

Lemma still_emit e w : no_removal e → J w → J (emit e w).
Proof.
  intros He [Hd (evs & Hevs & Hall)]. split; [done|].
  exists (evs ++ [e]). simpl. rewrite Hevs, app_assoc. split; [done|].
  apply Forall_app. split; [done | by apply Forall_singleton].
Qed.

Lemma keeps_log entry : keeps J (log entry) (λ _, True).
Proof. intros w Hw. split; [by apply still_emit | done]. Qed.

Lemma keeps_call op : is_removal op = false → keeps J (call faults op) (λ _, True).
Proof.
  intros Hop w Hw. unfold call.
  destruct (faults _ _); (split; [by apply still_emit | done]).
Qed.

Lemma keeps_read : keeps J read_dest (λ a, a = d).
Proof. intros w Hw. simpl. split; [done|]. intros a [= <-]. by destruct Hw. Qed.

Lemma keeps_write f : f d = d → keeps J (write_dest f) (λ _, True).
Proof.
  intros Hf w [Hd Hevs]. simpl. split; [|done]. split; [|done].
  simpl. by rewrite Hd.
Qed.

(** What being in sync says of one collection. *)
Lemma in_sync_copied c sdocs :
  is_system c = false → source !! c = Some sdocs → sdocs ≠ ∅ → d !! c = Some sdocs.
Proof.
  intros Hsys Hs Hne. pose proof d_in_sync as Hsync. unfold in_sync in Hsync.
  rewrite <- Hsync at 1. rewrite synced_lookup.
  unfold synced_at. rewrite Hsys, Hs. by rewrite decide_False.
Qed.

Lemma in_sync_within c docs :
  is_system c = false → d !! c = Some docs →
  is_Some (source !! c) ∧ dom docs ⊆ dom (coll_of source c).
Proof.
  intros Hsys Hd. pose proof (synced_lookup source d c) as H.
  pose proof d_in_sync as Hsync. unfold in_sync in Hsync.
  rewrite Hsync, Hd in H. unfold synced_at in H. rewrite Hsys, Hd in H.
  unfold coll_of. destruct (source !! c) as [sdocs|]; [|done]. simpl.
  split; [eauto|]. destruct (decide (sdocs = ∅)); by injection H as ->.
Qed.

Lemma in_sync_no_stale : user_collections d ∖ user_collections source = ∅.
Proof.
  apply set_eq. intros c. rewrite elem_of_difference, !elem_of_user_collections.
  split; [|by intros ?%not_elem_of_empty].
  intros [[Hsys [docs Hd]] Hns]. exfalso. apply Hns. split; [done|].
  by destruct (in_sync_within c docs Hsys Hd).
Qed.

(** Writing a document that is already there. *)
Lemma replace_doc_same c sdocs doc :
  d !! c = Some sdocs → doc ∈ map_to_list sdocs → replace_doc c doc d = d.
Proof.
  intros Hd Hdoc. destruct doc as [id body].
  apply elem_of_map_to_list in Hdoc. unfold replace_doc. simpl.
  rewrite (coll_of_lookup _ _ _ Hd). rewrite (insert_id sdocs) by done.
  by apply insert_id.
Qed.

Lemma keeps_src_count c :
  keeps J (src_count_documents faults source c)
        (λ n, n = Z.of_nat (size (coll_of source c))).
Proof.
  eapply keeps_bind; [by apply keeps_call|]. intros _ _. by apply keeps_ret.
Qed.

Lemma keeps_src_find c :
  keeps J (src_find faults source c) (λ docs, docs = map_to_list (coll_of source c)).
Proof.
  eapply keeps_bind; [by apply keeps_call|]. intros _ _. by apply keeps_ret.
Qed.

Lemma keeps_upsert_writes c :
  is_system c = false → coll_of source c ≠ ∅ →
  keeps J (for_each (map_to_list (coll_of source c))
                    (λ doc, dst_replace_one faults c doc)) (λ _, True).
Proof.
  intros Hsys Hne. apply keeps_for_each. intros doc Hdoc.
  eapply keeps_bind; [by apply keeps_call|]. intros _ _.
  apply keeps_write. unfold coll_of in *.
  destruct (source !! c) as [sdocs|] eqn:Hs; [|done]. simpl in *.
  eapply replace_doc_same; [by apply in_sync_copied | done].
Qed.

Lemma keeps_upsert_collection c :
  is_system c = false →
  keeps J (upsert_collection faults threshold source c) (λ _, True).
Proof.
  intros Hsys. apply keeps_try; [|apply keeps_log].
  eapply keeps_bind; [apply keeps_src_count|]. intros n ->.
  destruct (Z.eqb_spec (Z.of_nat (size (coll_of source c))) 0) as [|Hnz];
    [by apply keeps_ret|].
  assert (Hne : coll_of source c ≠ ∅).
  { intros He. apply Hnz. by rewrite He, map_size_empty. }
  eapply keeps_bind; [apply keeps_log|]. intros _ _.
  destruct (_ <=? threshold).
  - eapply keeps_bind; [apply keeps_src_find|]. intros docs ->.
    eapply keeps_bind; [by apply keeps_upsert_writes|]. intros _ _. apply keeps_log.
  - eapply keeps_bind; [apply keeps_src_find|]. intros docs ->.
    by apply keeps_upsert_writes.
Qed.

Lemma keeps_incremental_upsert :
  keeps J (incremental_upsert faults threshold source) (λ _, True).
Proof.
  eapply keeps_bind; [apply keeps_log|]. intros _ _.
  eapply keeps_bind.
  { eapply keeps_bind; [by apply keeps_call|]. intros _ _.
    by apply (keeps_ret _ _ (λ _, True)). }
  intros names _. apply keeps_for_each. intros c _.
  destruct (is_system c) eqn:Hsys; [by apply keeps_ret|].
  by apply keeps_upsert_collection.
Qed.

Lemma keeps_dst_find_ids c :
  keeps J (dst_find_ids faults c) (λ ids, ids = (map_to_list (coll_of d c)).*1).
Proof.
  eapply keeps_bind; [by apply keeps_call|]. intros _ _.
  eapply keeps_bind; [apply keeps_read|]. intros ? ->. by apply keeps_ret.
Qed.

(** Every id of an in-sync destination collection is an id of the source. *)
Lemma in_sync_ids c id :
  is_system c = false → id ∈ (map_to_list (coll_of d c)).*1 →
  is_Some (coll_of source c !! id).
Proof.
  intros Hsys Hid. apply list_elem_of_fmap in Hid as ([id' body] & -> & Hin).
  apply elem_of_map_to_list in Hin. simpl. unfold coll_of at 1 in Hin.
  destruct (d !! c) as [docs|] eqn:Hd; simpl in Hin; [|by rewrite lookup_empty in Hin].
  destruct (in_sync_within c docs Hsys Hd) as [_ Hsub].
  apply elem_of_dom, Hsub, elem_of_dom. eauto.
Qed.

Lemma keeps_reconcile_collection c :
  is_system c = false →
  keeps J (reconcile_collection faults threshold source c) (λ _, True).
Proof.
  intros Hsys. eapply keeps_bind.
  { apply (keeps_try _ _ _ (λ _, True)).
    - eapply keeps_bind; [apply keeps_src_count|]. intros n _.
      eapply keeps_bind.
      + eapply keeps_bind; [by apply keeps_call|]. intros _ _.
        eapply keeps_bind; [apply keeps_read|]. intros ? _.
        by apply (keeps_ret _ _ (λ _, True)).
      + intros m _. by apply keeps_ret.
    - eapply keeps_bind; [apply keeps_log|]. intros _ _. by apply keeps_ret. }
  intros [[n m]|] _; [|by apply keeps_ret].
  eapply keeps_bind; [apply keeps_log|]. intros _ _.
  destruct (n <=? threshold).
  - eapply keeps_bind.
    { eapply keeps_bind; [by apply keeps_call|]. intros _ _.
      by apply (keeps_ret _ _ (λ ids, ids = (map_to_list (coll_of source c)).*1)). }
    intros ids ->. simpl. rewrite source_ids_dom.
    eapply keeps_bind; [apply keeps_dst_find_ids|]. intros cursor ->.
    eapply keeps_bind; [|intros ? _; apply keeps_log].
    apply keeps_for_each_counting. intros id k Hid.
    rewrite bool_decide_eq_true_2; [by apply keeps_ret|].
    apply elem_of_dom. by apply in_sync_ids.
  - eapply keeps_bind; [apply keeps_dst_find_ids|]. intros cursor ->.
    eapply keeps_bind; [|intros ? _; apply keeps_log].
    apply keeps_for_each_counting. intros id k Hid.
    destruct (in_sync_ids c id Hsys Hid) as [body Hbody].
    eapply keeps_bind.
    { eapply keeps_bind; [by apply keeps_call|]. intros _ _.
      by apply (keeps_ret _ _ (λ n, n = 1)); rewrite Hbody. }
    intros ? ->. by apply keeps_ret.
Qed.

Lemma keeps_reconcile_deletions :
  keeps J (reconcile_deletions faults threshold source) (λ _, True).
Proof.
  eapply keeps_bind; [apply keeps_log|]. intros _ _.
  apply keeps_try; [|apply keeps_log].
  eapply keeps_bind.
  { eapply keeps_bind; [by apply keeps_call|]. intros _ _.
    by apply (keeps_ret _ _ (λ names, names = elements (dom source))). }
  intros src_names ->.
  eapply keeps_bind.
  { eapply keeps_bind; [by apply keeps_call|]. intros _ _.
    eapply keeps_bind; [apply keeps_read|]. intros ? ->.
    by apply (keeps_ret _ _ (λ names, names = elements (dom d))). }
  intros dst_names ->. simpl.
  change (list_to_set (filter (λ c, is_system c = false) (elements (dom d))))
    with (user_collections d).
  change (list_to_set (filter (λ c, is_system c = false) (elements (dom source))))
    with (user_collections source).
  rewrite in_sync_no_stale, elements_empty. simpl.
  eapply keeps_bind; [by apply (keeps_ret _ _ (λ _, True))|]. intros _ _.
  apply keeps_for_each. intros c Hc. apply keeps_reconcile_collection.
  apply elem_of_elements, elem_of_intersection in Hc as [Hc _].
  by apply elem_of_user_collections in Hc as [? _].
Qed.

Lemma keeps_sync_destination :
  keeps J (sync_destination faults threshold source) (λ _, True).
Proof.
  eapply keeps_bind; [apply keeps_incremental_upsert|]. intros _ _.
  apply keeps_reconcile_deletions.
Qed.

End InSync.

(** [main] over destinations that are all in sync. *)
Lemma main_loop_in_sync faults threshold source dsts tr :
  Forall (in_sync source) dsts →
  (main_loop faults threshold source dsts tr).2.1 = dsts
  ∧ ∃ evs, (main_loop faults threshold source dsts tr).2.2 = tr ++ evs
           ∧ Forall no_removal evs.
Proof.
  intros Hall. revert tr. induction Hall as [|d dsts Hd _ IH]; intros tr; simpl.
  - split; [done|]. exists []. by rewrite app_nil_r.
  - destruct (keeps_sync_destination faults threshold source d tr Hd (World d tr))
      as [[Hdest (e1 & He1 & Hq1)] _].
    { split; [done|]. exists []. by rewrite app_nil_r. }
    destruct (sync_destination _ _ _ _) as [[[]|] w]; simpl in *.
    + destruct (IH (trace w)) as [Hrest (e2 & He2 & Hq2)].
      destruct (main_loop _ _ _ _ _) as [o [rest' tr']]. simpl in *.
      split; [by rewrite Hdest, Hrest|].
      exists (e1 ++ e2). split; [by rewrite He2, He1, app_assoc | by apply Forall_app].
    + split; [by rewrite Hdest | eauto].
Qed.

(** ** How [main] ends *)

Lemma sync_destination_cases faults threshold source w :
  (faults (trace w ++ [Log StartingUpsert]) ListSource = true
   ∧ sync_destination faults threshold source w
     = (Raised, World (dest w)
                  (trace w ++ [Log StartingUpsert; Call ListSource true])))
  ∨ (faults (trace w ++ [Log StartingUpsert]) ListSource = false
     ∧ (sync_destination faults threshold source w).1 = Done tt).
Proof.
  unfold sync_destination, bind. rewrite incremental_upsert_step.
  destruct (faults _ ListSource); [by left | right]. split; [done|].
  destruct (upsert_loop_segments faults threshold source (elements (dom source))
              (World (dest w) (trace w ++ [Log StartingUpsert; Call ListSource false])))
    as (evs & d' & -> & _).
  destruct (reconcile_deletions _ _ _ _) as [o w'] eqn:Hr.
  by apply reconcile_deletions_segments in Hr as [-> _].
Qed.

Lemma last_two {A} (l : list A) x y : last (l ++ [x; y]) = Some y.
Proof. change (l ++ [x; y]) with (l ++ [x] ++ [y]). by rewrite app_assoc, last_snoc. Qed.

Lemma main_loop_outcome faults threshold source dsts tr :
  length (main_loop faults threshold source dsts tr).2.1 = length dsts
  ∧ match (main_loop faults threshold source dsts tr).1 with
    | Done _ => True
    | Raised =>
        ∃ k d, dsts !! k = Some d
               ∧ drop k (main_loop faults threshold source dsts tr).2.1 = drop k dsts
               ∧ last (main_loop faults threshold source dsts tr).2.2
                 = Some (Call ListSource true)
    end.
Proof.
  revert tr. induction dsts as [|d dsts IH]; intros tr; simpl; [done|].
  destruct (sync_destination_cases faults threshold source (World d tr))
    as [[_ ->]|[_ Hdone]]; simpl.
  - split; [done|]. exists 0%nat, d. split; [done|]. split; [done|]. apply last_two.
  - destruct (sync_destination _ _ _ _) as [[[]|] w]; [|done]. simpl.
    specialize (IH (trace w)).
    destruct (main_loop _ _ _ _ _) as [[[]|] [rest' tr']]; simpl in *.
    + destruct IH as [-> _]. done.
    + destruct IH as [-> (k & d' & Hk & Hdrop & Hlast)]. split; [done|].
      by exists (S k), d'.
Qed.

Lemma main_loop_listing_ok faults threshold source dsts tr :
  (∀ history, faults history ListSource = false) →
  (main_loop faults threshold source dsts tr).1 = Done tt.
Proof.
  intros Hok. revert tr. induction dsts as [|d dsts IH]; intros tr; simpl; [done|].
  destruct (sync_destination_cases faults threshold source (World d tr))
    as [[Hfail _]|[_ Hdone]]; [by rewrite Hok in Hfail|].
  destruct (sync_destination _ _ _ _) as [[[]|] w]; [|done]. simpl.
  specialize (IH (trace w)). by destruct (main_loop _ _ _ _ _) as [o [rest' tr']].
Qed.

(** ** The upsert phase never looks at the destination *)

Lemma blind_ret {A} (a : A) : blind (ret a).
Proof. by intros w1 w2 Htr. Qed.

Lemma blind_bind {A B} (m : M A) (k : A → M B) :
  blind m → (∀ a, blind (k a)) → blind (bind m k).
Proof.
  intros Hm Hk w1 w2 Htr. unfold bind. destruct (Hm w1 w2 Htr) as [Ho Ht].
  destruct (m w1) as [[a1|] w1'], (m w2) as [[a2|] w2']; simpl in *; try done.
  injection Ho as ->. by apply Hk.
Qed.

Lemma blind_try {A} (m h : M A) : blind m → blind h → blind (try_except m h).
Proof.
  intros Hm Hh w1 w2 Htr. unfold try_except. destruct (Hm w1 w2 Htr) as [Ho Ht].
  destruct (m w1) as [[a1|] w1'], (m w2) as [[a2|] w2']; simpl in *; try done.
  by apply Hh.
Qed.

Lemma blind_for_each {A} (l : list A) (body : A → M unit) :
  (∀ x, blind (body x)) → blind (for_each l body).
Proof.
  intros Hbody. induction l as [|x l IH]; simpl.
  - apply blind_ret.
  - apply blind_bind; [apply Hbody | by intros _].
Qed.

Lemma blind_log entry : blind (log entry).
Proof. intros w1 w2 Htr. simpl. by rewrite Htr. Qed.

Lemma blind_write f : blind (write_dest f).
Proof. by intros w1 w2 Htr. Qed.

Lemma blind_call faults op : blind (call faults op).
Proof.
  intros w1 w2 Htr. unfold call. rewrite Htr.
  destruct (faults _ _); simpl; by rewrite Htr.
Qed.

Lemma blind_upsert_writes faults c (docs : list (Z * string)) :
  blind (for_each docs (λ doc, dst_replace_one faults c doc)).
Proof.
  apply blind_for_each. intros doc.
  apply blind_bind; [apply blind_call | intros _; apply blind_write].
Qed.

Lemma blind_src_find faults source c : blind (src_find faults source c).
Proof. apply blind_bind; [apply blind_call | intros _; apply blind_ret]. Qed.

Lemma blind_upsert_collection faults threshold source c :
  blind (upsert_collection faults threshold source c).
Proof.
  apply blind_try; [|apply blind_log].
  apply blind_bind.
  { apply blind_bind; [apply blind_call | intros _; apply blind_ret]. }
  intros n. destruct (n =? 0); [apply blind_ret|].
  apply blind_bind; [apply blind_log|]. intros _. destruct (n <=? threshold).
  - apply blind_bind; [apply blind_src_find|]. intros docs.
    apply blind_bind; [apply blind_upsert_writes | intros _; apply blind_log].
  - apply blind_bind; [apply blind_src_find|]. intros docs.
    apply blind_upsert_writes.
Qed.

Lemma blind_incremental_upsert faults threshold source :
  blind (incremental_upsert faults threshold source).
Proof.
  apply blind_bind; [apply blind_log|]. intros _.
  apply blind_bind.
  { apply blind_bind; [apply blind_call | intros _; apply blind_ret]. }
  intros names. apply blind_for_each. intros c.
  destruct (is_system c); [apply blind_ret | apply blind_upsert_collection].
Qed.

(** ** The reconciliation phase only removes *)

#[local] Instance shrinks_refl : Reflexive shrinks.
Proof. intros d c docs H. eauto. Qed.

#[local] Instance shrinks_trans : Transitive shrinks.
Proof.
  intros d1 d2 d3 H12 H23 c docs3 H3.
  destruct (H23 _ _ H3) as (docs2 & H2 & Hsub2).
  destruct (H12 _ _ H2) as (docs1 & H1 & Hsub1).
  exists docs1. split; [done|]. by etransitivity.
Qed.

Lemma delete_shrinks c (d : Database) : shrinks d (delete c d).
Proof.
  intros c' docs' H. apply lookup_delete_Some in H as [_ H]. eauto.
Qed.

Lemma delete_doc_shrinks c id (d : Database) : shrinks d (delete_doc c id d).
Proof.
  unfold delete_doc. destruct (d !! c) as [docs|] eqn:Hd; [|reflexivity].
  intros c' docs' H. destruct (decide (c = c')) as [<-|Hne].
  - rewrite lookup_insert_eq in H. injection H as <-.
    exists docs. split; [done|]. apply delete_subseteq.
  - rewrite lookup_insert_ne in H by done. eauto.
Qed.

Lemma reconcile_collection_shrinks faults threshold source c :
  step_inv (grows no_write shrinks) (reconcile_collection faults threshold source c).
Proof.
  assert (Hdel : ∀ id, step_inv (grows no_write shrinks) (dst_delete_one faults c id)).
  { intros id. i_bind; [by i_call|]. i_write. intros d. apply delete_doc_shrinks. }
  assert (Hfind : step_inv (grows no_write shrinks) (dst_find_ids faults c)).
  { i_bind; [by i_call|]. i_bind; [i_read | i_ret]. }
  i_bind.
  { i_try.
    - i_bind. { i_bind; [by i_call | i_ret]. }
      i_bind; [|i_ret]. i_bind; [by i_call|]. i_bind; [i_read | i_ret].
    - i_bind; [i_log | i_ret]. }
  match goal with counts : option (Z * Z) |- _ =>
    destruct counts as [[src_count dst_count]|] end; [|i_ret].
  i_bind; [i_log|]. destruct (_ <=? threshold).
  - i_bind. { i_bind; [by i_call | i_ret]. } simpl.
    i_bind; [apply Hfind|]. i_bind; [|i_log].
    i_for_counting. destruct (bool_decide _); [i_ret|].
    i_bind; [apply Hdel | i_ret].
  - i_bind; [apply Hfind|]. i_bind; [|i_log].
    i_for_counting. i_bind. { i_bind; [by i_call | i_ret]. }
    destruct (_ =? 0); [|i_ret]. i_bind; [apply Hdel | i_ret].
Qed.

Lemma reconcile_deletions_shrinks faults threshold source :
  step_inv (grows no_write shrinks) (reconcile_deletions faults threshold source).
Proof.
  i_bind; [i_log|]. i_try; [|i_log].
  i_bind. { i_bind; [by i_call | i_ret]. }
  i_bind. { i_bind; [by i_call|]. i_bind; [i_read | i_ret]. }
  simpl. i_bind.
  - i_for. i_try; [|i_log]. i_bind; [i_log|]. i_bind; [by i_call|].
    i_write. intros d. apply delete_shrinks.
  - i_for. apply reconcile_collection_shrinks.
Qed.

(** ** The reconciliation phase spares what the source has *)

Section Sparing.

Variable faults : list event → store_op → bool.
Variable threshold : Z.
Variables source d0 : Database.
Variable tr0 : list event.

Abbreviation Sp := (sparing source d0 tr0).

Lemma sparing_emit e w : spares source e → Sp w → Sp (emit e w).
Proof.
  intros He [Hd (evs & Hevs & Hall)]. split; [done|].
  exists (evs ++ [e]). simpl. rewrite Hevs, app_assoc. split; [done|].
  apply Forall_app. split; [done | by apply Forall_singleton].
Qed.

Lemma sparing_log entry : keeps Sp (log entry) (λ _, True).
Proof. intros w Hw. split; [by apply sparing_emit | done]. Qed.

Lemma sparing_call op :
  (∀ b, spares source (Call op b)) → keeps Sp (call faults op) (λ _, True).
Proof.
  intros Hop w Hw. unfold call.
  destruct (faults _ _); (split; [by apply sparing_emit | done]).
Qed.

Lemma sparing_read : keeps Sp read_dest (λ _, True).
Proof. by intros w Hw. Qed.

Lemma sparing_write f :
  (∀ d, spared source d0 d → spared source d0 (f d)) →
  keeps Sp (write_dest f) (λ _, True).
Proof.
  intros Hf w [Hd Hevs]. simpl. split; [|done]. split; [by apply Hf | done].
Qed.

Lemma spared_delete_doc c id d :
  coll_of source c !! id = None →
  spared source d0 d → spared source d0 (delete_doc c id d).
Proof.
  intros Hid Hd c' id' body Hs H0. specialize (Hd c' id' body Hs H0).
  unfold delete_doc. destruct (d !! c) as [docs|] eqn:Hdc; [|done].
  destruct (decide (c = c')) as [<-|Hne].
  - rewrite coll_of_insert. rewrite (coll_of_lookup _ _ _ Hdc) in Hd.
    rewrite lookup_delete_ne; [done|]. intros <-. rewrite Hid in Hs.
    by destruct Hs.
  - by rewrite coll_of_insert_ne.
Qed.

Lemma spared_delete c d :
  source !! c = None → spared source d0 d → spared source d0 (delete c d).
Proof.
  intros Hc Hd c' id' body Hs H0. specialize (Hd c' id' body Hs H0).
  destruct (decide (c = c')) as [<-|Hne].
  - rewrite (coll_of_absent _ _ Hc), lookup_empty in Hs. by destruct Hs.
  - unfold coll_of in *. by rewrite lookup_delete_ne.
Qed.

Lemma sparing_delete_one c id :
  coll_of source c !! id = None → keeps Sp (dst_delete_one faults c id) (λ _, True).
Proof.
  intros Hid. eapply keeps_bind; [by apply sparing_call|]. intros _ _.
  apply sparing_write. intros d. by apply spared_delete_doc.
Qed.

Lemma sparing_dst_find_ids c : keeps Sp (dst_find_ids faults c) (λ _, True).
Proof.
  eapply keeps_bind; [by apply sparing_call|]. intros _ _.
  eapply keeps_bind; [apply sparing_read|]. intros ? _.
  by apply (keeps_ret _ _ (λ _, True)).
Qed.

Lemma sparing_reconcile_collection c :
  keeps Sp (reconcile_collection faults threshold source c) (λ _, True).
Proof.
  eapply keeps_bind.
  { apply (keeps_try _ _ _ (λ _, True)).
    - eapply keeps_bind.
      { eapply keeps_bind; [by apply sparing_call|]. intros _ _.
        by apply (keeps_ret _ _ (λ _, True)). }
      intros n _. eapply keeps_bind.
      + eapply keeps_bind; [by apply sparing_call|]. intros _ _.
        eapply keeps_bind; [apply sparing_read|]. intros ? _.
        by apply (keeps_ret _ _ (λ _, True)).
      + intros m _. by apply keeps_ret.
    - eapply keeps_bind; [apply sparing_log|]. intros _ _. by apply keeps_ret. }
  intros [[n m]|] _; [|by apply keeps_ret].
  eapply keeps_bind; [apply sparing_log|]. intros _ _.
  destruct (n <=? threshold).
  - eapply keeps_bind.
    { eapply keeps_bind; [by apply sparing_call|]. intros _ _.
      by apply (keeps_ret _ _ (λ ids, ids = (map_to_list (coll_of source c)).*1)). }
    intros ids ->. simpl. rewrite source_ids_dom.
    eapply keeps_bind; [apply sparing_dst_find_ids|]. intros cursor _.
    eapply keeps_bind; [|intros ? _; apply sparing_log].
    apply keeps_for_each_counting. intros id k _.
    case_bool_decide as Hid; [by apply keeps_ret|].
    eapply keeps_bind; [|intros _ _; by apply keeps_ret].
    apply sparing_delete_one. by apply not_elem_of_dom.
  - eapply keeps_bind; [apply sparing_dst_find_ids|]. intros cursor _.
    eapply keeps_bind; [|intros ? _; apply sparing_log].
    apply keeps_for_each_counting. intros id k _.
    eapply keeps_bind.
    { eapply keeps_bind; [by apply sparing_call|]. intros _ _.
      by apply (keeps_ret _ _
                  (λ n, n = if coll_of source c !! id is Some _ then 1 else 0)). }
    intros ? ->. destruct (coll_of source c !! id) eqn:Hid; simpl;
      [by apply keeps_ret|].
    eapply keeps_bind; [|intros _ _; by apply keeps_ret].
    by apply sparing_delete_one.
Qed.

Lemma sparing_drop_stale c :
  source !! c = None → keeps Sp (drop_stale_collection faults c) (λ _, True).
Proof.
  intros Hc. apply keeps_try; [|apply sparing_log].
  eapply keeps_bind; [apply sparing_log|]. intros _ _.
  eapply keeps_bind; [by apply sparing_call|]. intros _ _.
  apply sparing_write. intros d. by apply spared_delete.
Qed.

Lemma sparing_reconcile_deletions :
  keeps Sp (reconcile_deletions faults threshold source) (λ _, True).
Proof.
  eapply keeps_bind; [apply sparing_log|]. intros _ _.
  apply keeps_try; [|apply sparing_log].
  eapply keeps_bind.
  { eapply keeps_bind; [by apply sparing_call|]. intros _ _.
    by apply (keeps_ret _ _ (λ names, names = elements (dom source))). }
  intros src_names ->.
  eapply keeps_bind.
  { eapply keeps_bind; [by apply sparing_call|]. intros _ _.
    eapply keeps_bind; [apply sparing_read|]. intros ? _.
    by apply (keeps_ret _ _ (λ _, True)). }
  intros dst_names _. simpl.
  eapply keeps_bind.
  - apply keeps_for_each. intros c Hc. apply sparing_drop_stale.
    apply elem_of_elements, elem_of_difference in Hc as [Hdst Hsrc].
    apply elem_of_user_names in Hdst.
    destruct (source !! c) eqn:Hs; [|done]. exfalso. apply Hsrc.
    apply elem_of_list_to_set, list_elem_of_filter. split; [done|].
    apply elem_of_elements, elem_of_dom. eauto.
  - intros _ _. apply keeps_for_each. intros c _.
    apply sparing_reconcile_collection.
Qed.

End Sparing.

(** ** Every stale collection has its drop attempted *)

Lemma drop_loop_attempts faults l w :
  ∃ evs d',
    for_each l (drop_stale_collection faults) w = (Done tt, World d' (trace w ++ evs))
    ∧ ∀ c, c ∈ l → ∃ b, Call (DropCollection c) b ∈ evs.
Proof.
  revert w. induction l as [|c0 l IH]; intros w; simpl.
  - exists [], (dest w). rewrite app_nil_r. split; [by destruct w|].
    intros c Hc. by apply elem_of_nil in Hc.
  - unfold bind. rewrite drop_stale_collection_step.
    destruct (faults _ _).
    + destruct (IH (World (dest w) (trace w ++ [Log (Dropping c0);
                 Call (DropCollection c0) true; Log (FailedDrop c0)])))
        as (e2 & d2 & -> & Hatt). simpl.
      exists ([Log (Dropping c0); Call (DropCollection c0) true;
               Log (FailedDrop c0)] ++ e2), d2.
      split; [by rewrite app_assoc|].
      intros c [->|Hc]%elem_of_cons.
      * exists true. apply list_elem_of_further, list_elem_of_here.
      * destruct (Hatt c Hc) as [b Hb]. exists b. by do 3 apply list_elem_of_further.
    + destruct (IH (World (delete c0 (dest w)) (trace w ++ [Log (Dropping c0);
                 Call (DropCollection c0) false])))
        as (e2 & d2 & -> & Hatt). simpl.
      exists ([Log (Dropping c0); Call (DropCollection c0) false] ++ e2), d2.
      split; [by rewrite app_assoc|].
      intros c [->|Hc]%elem_of_cons.
      * exists false. apply list_elem_of_further, list_elem_of_here.
      * destruct (Hatt c Hc) as [b Hb]. exists b. by do 2 apply list_elem_of_further.
Qed.

(** ** Runs on the fixtures *)

(** The scenarios of the specification in one run: [orders] converges, the
    stale id 4 and the collection [legacy_orders] go, [system.js] stays; the
    empty destination receives [orders]. *)
Example run_orders :
  main reliable IN_MEMORY_ID_THRESHOLD source_orders [dest_stale; ∅]
  = (Done tt,
     ([ {[ "orders" := {[ 1 := "one"; 2 := "two"; 3 := "three" ]};
           "system.js" := {[ 7 := "f" ]} ]};
        {[ "orders" := {[ 1 := "one"; 2 := "two"; 3 := "three" ]} ]} ],
      [Log StartingUpsert; Call ListSource false;
       Call (CountSource "orders") false; Log (Processing "orders" 3);
       Call (FindSource "orders") false;
       Call (ReplaceOne "orders" 3 "three") false;
       Call (ReplaceOne "orders" 2 "two") false;
       Call (ReplaceOne "orders" 1 "one") false;
       Log (Upserted 3 "orders"); Log StartingReconciliation;
       Call ListSource false; Call ListDest false;
       Log (Dropping "legacy_orders");
       Call (DropCollection "legacy_orders") false;
       Call (CountSource "orders") false; Call (CountDest "orders") false;
       Log (Reconciling "orders" 3 4); Call (FindSourceIds "orders") false;
       Call (FindDestIds "orders") false;
       Call (DeleteOne "orders" 4) false; Log (Deleted 1 "orders");
       Log StartingUpsert; Call ListSource false;
       Call (CountSource "orders") false; Log (Processing "orders" 3);
       Call (FindSource "orders") false;
       Call (ReplaceOne "orders" 3 "three") false;
       Call (ReplaceOne "orders" 2 "two") false;
       Call (ReplaceOne "orders" 1 "one") false;
       Log (Upserted 3 "orders"); Log StartingReconciliation;
       Call ListSource false; Call ListDest false;
       Call (CountSource "orders") false; Call (CountDest "orders") false;
       Log (Reconciling "orders" 3 3); Call (FindSourceIds "orders") false;
       Call (FindDestIds "orders") false; Log (Deleted 0 "orders");
       Log Completed])).
Proof. vm_compute. reflexivity. Qed.

(** With a threshold below the count, the same pass goes through the STREAM
    branches: no "Upserted" line, one existence query per destination id. *)
Example run_orders_stream :
  sync_destination reliable 2 source_orders (World dest_stale [])
  = (Done tt,
     World {[ "orders" := {[ 1 := "one"; 2 := "two"; 3 := "three" ]};
              "system.js" := {[ 7 := "f" ]} ]}
       [Log StartingUpsert; Call ListSource false;
        Call (CountSource "orders") false; Log (Processing "orders" 3);
        Call (FindSource "orders") false;
        Call (ReplaceOne "orders" 3 "three") false;
        Call (ReplaceOne "orders" 2 "two") false;
        Call (ReplaceOne "orders" 1 "one") false;
        Log StartingReconciliation; Call ListSource false;
        Call ListDest false; Log (Dropping "legacy_orders");
        Call (DropCollection "legacy_orders") false;
        Call (CountSource "orders") false; Call (CountDest "orders") false;
        Log (Reconciling "orders" 3 4); Call (FindDestIds "orders") false;
        Call (ExistsSource "orders" 3) false;
        Call (ExistsSource "orders" 4) false;
        Call (DeleteOne "orders" 4) false;
        Call (ExistsSource "orders" 2) false;
        Call (ExistsSource "orders" 1) false; Log (Deleted 1 "orders")]).
Proof. vm_compute. reflexivity. Qed.

(** A count that raises: the pair [a] keeps its stale document, the pair
    [b] is reconciled. *)
Example run_count_error :
  reconcile_deletions count_dest_a_fails IN_MEMORY_ID_THRESHOLD source_ab
    (World dest_ab [])
  = (Done tt,
     World {[ "a" := {[ 1 := "x"; 2 := "y" ]}; "b" := {[ 1 := "x" ]} ]}
       [Log StartingReconciliation; Call ListSource false;
        Call ListDest false; Call (CountSource "a") false;
        Call (CountDest "a") true; Log (CountError "a");
        Call (CountSource "b") false; Call (CountDest "b") false;
        Log (Reconciling "b" 1 2); Call (FindSourceIds "b") false;
        Call (FindDestIds "b") false; Call (DeleteOne "b" 2) false;
        Log (Deleted 1 "b")]).
Proof. vm_compute. reflexivity. Qed.

(** A read that raises: the phase ends there; the pair [b] is not reached
    and keeps its stale document. *)
Example run_read_error :
  reconcile_deletions first_read_fails IN_MEMORY_ID_THRESHOLD source_ab
    (World dest_ab [])
  = (Done tt,
     World dest_ab
       [Log StartingReconciliation; Call ListSource false;
        Call ListDest false; Call (CountSource "a") false;
        Call (CountDest "a") false; Log (Reconciling "a" 1 2);
        Call (FindSourceIds "a") true; Log MongoError]).
Proof. vm_compute. reflexivity. Qed.

(** A read that raises in the upsert phase: [a] is logged and left, [b] is
    copied. *)
Example run_upsert_error :
  incremental_upsert find_a_fails IN_MEMORY_ID_THRESHOLD source_ab (World ∅ [])
  = (Done tt,
     World {[ "b" := {[ 1 := "x" ]} ]}
       [Log StartingUpsert; Call ListSource false;
        Call (CountSource "a") false; Log (Processing "a" 1);
        Call (FindSource "a") true; Log (ErrorProcessing "a");
        Call (CountSource "b") false; Log (Processing "b" 1);
        Call (FindSource "b") false; Call (ReplaceOne "b" 1 "x") false;
        Log (Upserted 1 "b")]).
Proof. vm_compute. reflexivity. Qed.

(** ** The upsert phase writes source documents, where the source has some *)

Section Copying.

Variable faults : list event → store_op → bool.
Variable threshold : Z.
Variables source d0 : Database.
Variable tr0 : list event.

Abbreviation Cp := (copying source d0 tr0).

Lemma copying_emit e w : from_source source e → Cp w → Cp (emit e w).
Proof.
  intros He (Hr & Hn & evs & Hevs & Hall). split; [done|]. split; [done|].
  exists (evs ++ [e]). simpl. rewrite Hevs, app_assoc. split; [done|].
  apply Forall_app. split; [done | by apply Forall_singleton].
Qed.

Lemma copying_log entry : keeps Cp (log entry) (λ _, True).
Proof. intros w Hw. split; [by apply copying_emit | done]. Qed.

Lemma copying_call op :
  (∀ b, from_source source (Call op b)) → keeps Cp (call faults op) (λ _, True).
Proof.
  intros Hop w Hw. unfold call.
  destruct (faults _ _); (split; [by apply copying_emit | done]).
Qed.

Lemma copying_replace_one c id body :
  is_system c = false → coll_of source c !! id = Some body →
  keeps Cp (dst_replace_one faults c (id, body)) (λ _, True).
Proof.
  intros Hsys Hid. eapply keeps_bind; [by apply copying_call|]. intros _ _.
  intros w (Hr & Hn & Hevs). simpl. split; [|done]. split; [|split; [|done]].
  - intros c' Hc'. cbn [dest]. unfold replace_doc.
    rewrite lookup_insert_ne; [by apply Hr|].
    intros <-. destruct Hc' as [Hc'|Hc']; [congruence|].
    by rewrite Hc', lookup_empty in Hid.
  - intros c' id' body' H. cbn [dest] in H. unfold replace_doc in H. simpl in H.
    destruct (decide (c = c')) as [<-|Hne].
    + rewrite coll_of_insert in H. destruct (decide (id = id')) as [<-|Hid'].
      * rewrite lookup_insert_eq in H. injection H as <-. by right.
      * rewrite lookup_insert_ne in H by done. by apply Hn.
    + rewrite coll_of_insert_ne in H by done. by apply Hn.
Qed.

Lemma copying_src_find c :
  keeps Cp (src_find faults source c) (λ docs, docs = map_to_list (coll_of source c)).
Proof.
  eapply keeps_bind; [by apply copying_call|]. intros _ _. by apply keeps_ret.
Qed.

Lemma copying_upsert_writes c :
  is_system c = false →
  keeps Cp (for_each (map_to_list (coll_of source c))
                     (λ doc, dst_replace_one faults c doc)) (λ _, True).
Proof.
  intros Hsys. apply keeps_for_each. intros [id body] Hdoc.
  apply copying_replace_one; [done|]. by apply elem_of_map_to_list.
Qed.

Lemma copying_upsert_collection c :
  is_system c = false →
  keeps Cp (upsert_collection faults threshold source c) (λ _, True).
Proof.
  intros Hsys. apply keeps_try; [|apply copying_log].
  eapply keeps_bind.
  { eapply keeps_bind; [by apply copying_call|]. intros _ _.
    by apply (keeps_ret _ _ (λ _, True)). }
  intros n _. destruct (n =? 0); [by apply keeps_ret|].
  eapply keeps_bind; [apply copying_log|]. intros _ _.
  destruct (n <=? threshold).
  - eapply keeps_bind; [apply copying_src_find|]. intros docs ->.
    eapply keeps_bind; [by apply copying_upsert_writes|]. intros _ _.
    apply copying_log.
  - eapply keeps_bind; [apply copying_src_find|]. intros docs ->.
    by apply copying_upsert_writes.
Qed.

Lemma copying_incremental_upsert :
  keeps Cp (incremental_upsert faults threshold source) (λ _, True).
Proof.
  eapply keeps_bind; [apply copying_log|]. intros _ _.
  eapply keeps_bind.
  { eapply keeps_bind; [by apply copying_call|]. intros _ _.
    by apply (keeps_ret _ _ (λ _, True)). }
  intros names _. apply keeps_for_each. intros c _.
  destruct (is_system c) eqn:Hsys; [by apply keeps_ret|].
  by apply copying_upsert_collection.
Qed.

End Copying.

Lemma copying_start source w : copying source (dest w) (trace w) w.
Proof.
  split; [done|]. split; [by left|]. exists []. by rewrite app_nil_r.
Qed.

Lemma no_invention_shrinks source d0 d d' :
  no_invention source d0 d → shrinks d d' → no_invention source d0 d'.
Proof.
  intros Hn Hs c id body H. apply Hn. unfold coll_of in *.
  destruct (d' !! c) as [docs'|] eqn:Hd'; simpl in H; [|by rewrite lookup_empty in H].
  destruct (Hs _ _ Hd') as (docs & -> & Hsub). simpl.
  by eapply lookup_weaken.
Qed.

(** One destination, both phases. *)
Lemma sync_destination_no_invention faults threshold source w :
  no_invention source (dest w) (dest (sync_destination faults threshold source w).2).
Proof.
  unfold sync_destination, bind.
  destruct (copying_incremental_upsert faults threshold source (dest w) (trace w) w
              (copying_start source w)) as [(_ & Hn & _) _].
  destruct (incremental_upsert _ _ _ w) as [[[]|] w1]; simpl in *; [|done].
  eapply no_invention_shrinks; [exact Hn|].
  apply (reconcile_deletions_shrinks faults threshold source w1).
Qed.

Lemma main_loop_no_invention faults threshold source dsts tr :
  Forall2 (no_invention source) dsts (main_loop faults threshold source dsts tr).2.1.
Proof.
  revert tr. induction dsts as [|d dsts IH]; intros tr; simpl; [constructor|].
  pose proof (sync_destination_no_invention faults threshold source (World d tr)) as H.
  destruct (sync_destination _ _ _ _) as [[[]|] w]; simpl in *.
  - specialize (IH (trace w)).
    destruct (main_loop _ _ _ _ _) as [o [rest' tr']]. by constructor.
  - constructor; [done|]. apply Forall2_same_length_lookup_2; [done|].
    intros i x y Hx Hy. rewrite Hx in Hy. injection Hy as ->.
    intros c id body Hb. by left.
Qed.

(** * The claims *)

Lemma main_reliable_lookup threshold source dsts i d :
  dsts !! i = Some d →
  (main reliable threshold source dsts).1 = Done tt
  ∧ (main reliable threshold source dsts).2.1 !! i = Some (synced source d).
Proof.
  intros Hd. destruct (main_reliable threshold source dsts) as [tr ->]. simpl.
  split; [done|]. by rewrite list_lookup_fmap, Hd.
Qed.












(** C7.  Whatever store calls raise, no store call of a run is on a
    collection whose name starts with [system.] -- no count, read, upsert,
    delete or drop -- and every destination ends with its reserved
    collections as they were. *)
Theorem reserved_exclusion faults threshold source dsts :
  Forall off_system (main faults threshold source dsts).2.2
  ∧ Forall2 same_system dsts (main faults threshold source dsts).2.1.
Proof.
  unfold main.
  pose proof (main_loop_off_system faults threshold source dsts []) as H.
  simpl in H. destruct (main_loop _ _ _ _ _) as [[[]|] [dsts' tr]]; simpl in *;
    destruct H as [(evs & -> & Hoff) Hsame]; simpl.
  - split; [|done]. apply Forall_app. split; [done|]. by apply Forall_singleton.
  - done.
Qed.

(** C10.  Whatever store calls raise, the upsert phase removes nothing:
    every collection of the destination is still there afterwards with at
    least the ids it had, and the phase makes no delete and no drop call. *)
Theorem upsert_removes_nothing faults threshold source w :
  keeps_ids (dest w) (dest (incremental_upsert faults threshold source w).2)
  ∧ ∃ evs, trace (incremental_upsert faults threshold source w).2 = trace w ++ evs
           ∧ Forall no_removal evs.
Proof. apply incremental_upsert_keeps. Qed.







(** ** What the counts in the log lines count *)

Lemma deletes_done_app e1 e2 :
  deletes_done (e1 ++ e2) = (deletes_done e1 + deletes_done e2)%nat.
Proof.
  induction e1 as [|e e1 IH]; [done|].
  destruct e as [[] []|]; simpl; by rewrite ?IH.
Qed.

Lemma log_not_call entry evs :
  Forall (λ e, is_call e = true) evs → Log entry ∉ evs.
Proof. intros Hall Hin. by eapply Forall_forall in Hin; [|exact Hall]. Qed.

(** The writes of one collection: calls only; when the loop returns, one
    [replace_one] per document, in order. *)
Lemma replace_loop_trace faults c (docs : list (Z * string)) w o w' :
  for_each docs (λ doc, dst_replace_one faults c doc) w = (o, w') →
  ∃ evs,
    trace w' = trace w ++ evs
    ∧ Forall (λ e, is_call e = true) evs
    ∧ (o = Done tt → evs = writes_of c docs).
Proof.
  revert w. induction docs as [|doc docs IH]; intros w; simpl.
  - intros [= <- <-]. exists []. rewrite app_nil_r.
    split; [done|]. split; [constructor | done].
  - unfold bind at 1. unfold dst_replace_one at 1. unfold bind at 1, call.
    destruct (faults (trace w) _); simpl.
    + intros [= <- <-]. exists [Call (ReplaceOne c doc.1 doc.2) true].
      split; [done|]. split; [by apply Forall_singleton | done].
    + intros Heq. apply IH in Heq as (evs & Hevs & Hcalls & Hdone).
      exists (Call (ReplaceOne c doc.1 doc.2) false :: evs).
      simpl in Hevs. split; [by rewrite Hevs, <- app_assoc|].
      split; [by apply Forall_cons|].
      intros H. f_equal. by apply Hdone.
Qed.

(** The trace of the upsert of one collection, when it ends with the
    "Upserted" line. *)
Lemma upsert_collection_trace faults threshold source c w n c' evs :
  trace (upsert_collection faults threshold source c w).2 = trace w ++ evs →
  Log (Upserted n c') ∈ evs →
  evs = [Call (CountSource c) false;
         Log (Processing c (Z.of_nat (size (coll_of source c))));
         Call (FindSource c) false]
        ++ writes_of c (map_to_list (coll_of source c))
        ++ [Log (Upserted (size (coll_of source c)) c)].
Proof.
  rewrite upsert_collection_step.
  destruct (faults (trace w) (CountSource c)).
  { simpl. intros Heq%app_inv_head Hin. subst evs.
    repeat (apply elem_of_cons in Hin as [Hin|Hin]; [done|]).
    by apply elem_of_nil in Hin. }
  destruct (_ =? 0).
  { simpl. intros Heq%app_inv_head Hin. subst evs.
    repeat (apply elem_of_cons in Hin as [Hin|Hin]; [done|]).
    by apply elem_of_nil in Hin. }
  set (nz := Z.of_nat (size (coll_of source c))).
  set (docs := map_to_list (coll_of source c)).
  unfold try_except, bind at 1, log at 1, emit. simpl.
  set (tr1 := (trace w ++ [Call (CountSource c) false]) ++ [Log (Processing c nz)]).
  assert (Htr1 : tr1 = trace w ++ [Call (CountSource c) false; Log (Processing c nz)])
    by (unfold tr1; by rewrite <- app_assoc).
  assert (Hstream : ∀ w1, trace w1 = tr1 →
    ∃ evs1, trace (match upsert_stream faults source c w1 with
                   | (Done a, w') => (Done a, w')
                   | (Raised, w') => log (ErrorProcessing c) w'
                   end).2 = tr1 ++ evs1
            ∧ ∀ n c', Log (Upserted n c') ∉ evs1).
  { intros w1 Hw1. unfold upsert_stream, src_find, bind, call. rewrite Hw1.
    destruct (faults tr1 (FindSource c)); simpl.
    - rewrite Hw1. exists [Call (FindSource c) true; Log (ErrorProcessing c)].
      split; [by rewrite <- app_assoc|]. intros n0 c0 Hin.
      repeat (apply elem_of_cons in Hin as [Hin|Hin]; [done|]).
      by apply elem_of_nil in Hin.
    - fold docs. destruct (for_each docs _ _) as [o2 w2] eqn:Hloop.
      apply replace_loop_trace in Hloop as (e2 & He2 & Hcalls & _).
      destruct o2 as [[]|]; simpl in *.
      + exists (Call (FindSource c) false :: e2).
        split; [by rewrite He2, Hw1, <- app_assoc|]. intros n0 c0 Hin.
        apply elem_of_cons in Hin as [Hin|Hin]; [done|].
        by apply (log_not_call _ _ Hcalls) in Hin.
      + exists (Call (FindSource c) false :: e2 ++ [Log (ErrorProcessing c)]).
        split; [by rewrite He2, Hw1, <- !app_assoc|]. intros n0 c0 Hin.
        apply elem_of_cons in Hin as [Hin|Hin]; [done|].
        apply elem_of_app in Hin as [Hin|Hin];
          [by apply (log_not_call _ _ Hcalls) in Hin|].
        apply elem_of_cons in Hin as [Hin|Hin]; [done|].
        by apply elem_of_nil in Hin. }
  destruct (nz <=? threshold).
  2:{ destruct (Hstream (World (dest w) tr1) eq_refl) as (evs1 & -> & Hno).
      rewrite Htr1, <- app_assoc. simpl. intros Heq%app_inv_head Hin. subst evs.
      do 2 (apply elem_of_cons in Hin as [Hin|Hin]; [done|]).
      by apply Hno in Hin. }
  unfold upsert_materialize, src_find, bind, call. simpl.
  destruct (faults tr1 (FindSource c)); simpl.
  { rewrite Htr1, <- !app_assoc. simpl. intros Heq%app_inv_head Hin. subst evs.
    repeat (apply elem_of_cons in Hin as [Hin|Hin]; [done|]).
    by apply elem_of_nil in Hin. }
  fold docs. destruct (for_each docs _ _) as [o2 w2] eqn:Hloop.
  apply replace_loop_trace in Hloop as (e2 & He2 & Hcalls & Hdone).
  destruct o2 as [[]|]; simpl in *.
  - rewrite (Hdone eq_refl) in He2. rewrite He2, Htr1, <- !app_assoc. simpl.
    simpl. intros Heq%app_inv_head _. subst evs. unfold docs. by rewrite length_map_to_list.
  - rewrite He2, Htr1, <- !app_assoc. simpl. simpl. intros Heq%app_inv_head Hin. subst evs.
    do 3 (apply elem_of_cons in Hin as [Hin|Hin]; [done|]).
    apply elem_of_app in Hin as [Hin|Hin];
      [by apply (log_not_call _ _ Hcalls) in Hin|].
    apply elem_of_cons in Hin as [Hin|Hin]; [done|].
    by apply elem_of_nil in Hin.
Qed.

(** Closes [Forall] goals over a list of calls followed by a known tail. *)
Ltac all_calls := repeat (apply List.Forall_cons; [done|]); first [done | apply List.Forall_nil].

(** A deletion loop: calls only; when it returns, the counter has grown by
    the number of [delete_one] calls that returned. *)
Lemma delete_loop_count (body : Z → nat → M nat) l :
  (∀ id k w o w', body id k w = (o, w') →
     ∃ evs, trace w' = trace w ++ evs
            ∧ Forall (λ e, is_call e = true) evs
            ∧ ∀ k', o = Done k' → k' = (k + deletes_done evs)%nat) →
  ∀ n w o w', for_each_counting l body n w = (o, w') →
     ∃ evs, trace w' = trace w ++ evs
            ∧ Forall (λ e, is_call e = true) evs
            ∧ ∀ n', o = Done n' → n' = (n + deletes_done evs)%nat.
Proof.
  intros Hbody. induction l as [|id l IH]; intros n w o w'; simpl.
  - intros [= <- <-]. exists []. rewrite app_nil_r. split; [done|].
    split; [constructor|]. intros n' [= <-]. simpl. lia.
  - unfold bind. destruct (body id n w) as [[k|] w1] eqn:Hb;
      apply Hbody in Hb as (e1 & He1 & Hc1 & Hk1).
    + intros Hloop. apply IH in Hloop as (e2 & He2 & Hc2 & Hk2).
      exists (e1 ++ e2). split; [by rewrite He2, He1, app_assoc|].
      split; [by apply Forall_app|]. intros n' Hn'.
      rewrite deletes_done_app, (Hk2 n' Hn'), (Hk1 k eq_refl). lia.
    + intros [= <- <-]. exists e1. split; [done|]. split; [done|]. by intros n'.
Qed.

Lemma delete_one_trace faults c id (k : nat) w o w' :
  bind (dst_delete_one faults c id) (λ _, ret (S k)) w = (o, w') →
  ∃ evs, trace w' = trace w ++ evs
         ∧ Forall (λ e, is_call e = true) evs
         ∧ ∀ k', o = Done k' → k' = (k + deletes_done evs)%nat.
Proof.
  unfold dst_delete_one, bind, call, write_dest, ret.
  destruct (faults _ _); simpl; intros [= <- <-]; eexists;
    (split; [done|]); (split; [by apply Forall_singleton|]).
  - by intros k'.
  - intros k' [= <-]. simpl. lia.
Qed.

Lemma materialize_body_count faults c (keep : gset Z) id (k : nat) w o w' :
  (if bool_decide (id ∈ keep) then ret k
   else bind (dst_delete_one faults c id) (λ _, ret (S k))) w = (o, w') →
  ∃ evs, trace w' = trace w ++ evs
         ∧ Forall (λ e, is_call e = true) evs
         ∧ ∀ k', o = Done k' → k' = (k + deletes_done evs)%nat.
Proof.
  destruct (bool_decide _); [|apply delete_one_trace].
  intros [= <- <-]. exists []. rewrite app_nil_r. split; [done|].
  split; [constructor|]. intros k' [= <-]. simpl. lia.
Qed.

Lemma stream_body_count faults source c id (k : nat) w o w' :
  bind (src_count_id faults source c id) (λ n,
    if n =? 0 then bind (dst_delete_one faults c id) (λ _, ret (S k))
    else ret k) w = (o, w') →
  ∃ evs, trace w' = trace w ++ evs
         ∧ Forall (λ e, is_call e = true) evs
         ∧ ∀ k', o = Done k' → k' = (k + deletes_done evs)%nat.
Proof.
  unfold src_count_id. unfold bind at 1 2. unfold call at 1.
  destruct (faults (trace w) (ExistsSource c id)); simpl.
  - intros [= <- <-]. eexists. split; [done|].
    split; [by apply Forall_singleton | by intros k'].
  - destruct (_ =? 0).
    + intros Hd. apply delete_one_trace in Hd as (evs & Hevs & Hc & Hk).
      exists (Call (ExistsSource c id) false :: evs). simpl in Hevs.
      split; [by rewrite Hevs, <- app_assoc|]. split; [by apply Forall_cons|].
      intros k' Hk'. simpl. by apply Hk.
    + intros [= <- <-]. eexists. split; [done|].
      split; [by apply Forall_singleton|]. intros k' [= <-]. simpl. lia.
Qed.

Lemma reconcile_materialize_trace faults source c w o w' :
  reconcile_materialize faults source c w = (o, w') →
  ∃ evs, trace w' = trace w ++ evs ∧ branch_trace c o evs.
Proof.
  unfold reconcile_materialize, src_find_ids. unfold bind at 1 2. unfold call at 1.
  destruct (faults (trace w) (FindSourceIds c)); simpl.
  { intros [= <- <-]. eexists. split; [done|]. by apply Forall_singleton. }
  unfold dst_find_ids. unfold bind at 1 2 3. unfold call at 1.
  destruct (faults _ (FindDestIds c)); simpl.
  { intros [= <- <-]. exists [Call (FindSourceIds c) false; Call (FindDestIds c) true].
    split; [unfold emit; simpl; by rewrite <- app_assoc | all_calls]. }
  unfold bind at 1.
  destruct (for_each_counting _ _ _ _) as [[n|] w2] eqn:Hloop;
    eapply delete_loop_count in Hloop as (e2 & He2 & Hc2 & Hn2);
    try (intros; by eapply materialize_body_count).
  - intros [= <- <-]. simpl in *.
    exists ([Call (FindSourceIds c) false; Call (FindDestIds c) false] ++ e2
            ++ [Log (Deleted n c)]).
    split; [by rewrite He2, <- !app_assoc|].
    exists ([Call (FindSourceIds c) false; Call (FindDestIds c) false] ++ e2).
    split; [|simpl; all_calls].
    rewrite <- app_assoc. simpl. by rewrite (Hn2 n eq_refl).
  - intros [= <- <-]. simpl in *.
    exists ([Call (FindSourceIds c) false; Call (FindDestIds c) false] ++ e2).
    split; [by rewrite He2, <- !app_assoc | simpl; all_calls].
Qed.

Lemma reconcile_stream_trace faults source c w o w' :
  reconcile_stream faults source c w = (o, w') →
  ∃ evs, trace w' = trace w ++ evs ∧ branch_trace c o evs.
Proof.
  unfold reconcile_stream, dst_find_ids. unfold bind at 1 2 3. unfold call at 1.
  destruct (faults _ (FindDestIds c)); simpl.
  { intros [= <- <-]. eexists. split; [done|]. by apply Forall_singleton. }
  unfold bind at 1.
  destruct (for_each_counting _ _ _ _) as [[n|] w2] eqn:Hloop;
    eapply delete_loop_count in Hloop as (e2 & He2 & Hc2 & Hn2);
    try (intros; by eapply stream_body_count).
  - intros [= <- <-]. simpl in *.
    exists ([Call (FindDestIds c) false] ++ e2 ++ [Log (Deleted n c)]).
    split; [by rewrite He2, <- !app_assoc|].
    exists ([Call (FindDestIds c) false] ++ e2).
    split; [|simpl; all_calls].
    rewrite <- app_assoc. simpl. by rewrite (Hn2 n eq_refl).
  - intros [= <- <-]. simpl in *.
    exists ([Call (FindDestIds c) false] ++ e2).
    split; [by rewrite He2, <- !app_assoc | simpl; all_calls].
Qed.

Lemma reconcile_collection_deleted faults threshold source c w n c' evs :
  trace (reconcile_collection faults threshold source c w).2 = trace w ++ evs →
  Log (Deleted n c') ∈ evs →
  (reconcile_collection faults threshold source c w).1 = Done tt
  ∧ c' = c ∧ n = deletes_done evs.
Proof.
  rewrite reconcile_collection_step.
  destruct (faults (trace w) (CountSource c)).
  { simpl. intros Heq%app_inv_head Hin. subst evs.
    repeat (apply elem_of_cons in Hin as [Hin|Hin]; [done|]).
    by apply elem_of_nil in Hin. }
  destruct (faults _ (CountDest c)).
  { simpl. intros Heq%app_inv_head Hin. subst evs.
    repeat (apply elem_of_cons in Hin as [Hin|Hin]; [done|]).
    by apply elem_of_nil in Hin. }
  set (w1 := World _ _).
  assert (Hbranch : ∃ e1, trace
            ((if Z.of_nat (size (coll_of source c)) <=? threshold
              then reconcile_materialize faults source c
              else reconcile_stream faults source c) w1).2 = trace w1 ++ e1
            ∧ branch_trace c
                ((if Z.of_nat (size (coll_of source c)) <=? threshold
                  then reconcile_materialize faults source c
                  else reconcile_stream faults source c) w1).1 e1).
  { destruct (_ <=? threshold).
    - destruct (reconcile_materialize _ _ _ _) as [o w'] eqn:Hm.
      by apply reconcile_materialize_trace in Hm.
    - destruct (reconcile_stream _ _ _ _) as [o w'] eqn:Hs.
      by apply reconcile_stream_trace in Hs. }
  destruct Hbranch as (e1 & -> & Hb). unfold w1. simpl. rewrite <- app_assoc.
  intros Heq%app_inv_head Hin. subst evs.
  do 3 (apply elem_of_cons in Hin as [Hin|Hin]; [done|]).
  destruct (_ w1) as [[[]|] w2]; simpl in Hb.
  - destruct Hb as (calls & -> & Hcalls). split; [done|].
    apply elem_of_app in Hin as [Hin|Hin]; [by apply (log_not_call _ _ Hcalls) in Hin|].
    apply elem_of_cons in Hin as [Hin|Hin]; [|by apply elem_of_nil in Hin].
    injection Hin as -> ->. split; [done|].
    simpl. rewrite deletes_done_app. simpl. lia.
  - by apply (log_not_call _ _ Hb) in Hin.
Qed.

(** * Further properties *)








(** X5.  In a run in which no store call raises, a source collection that
    holds no document is not created in a destination that does not have
    it: the upsert phase skips it and the reconciliation phase has nothing
    to reconcile. *)
Theorem empty_collection_not_created threshold source dsts c i d :
  is_system c = false → source !! c = Some ∅ → dsts !! i = Some d →
  d !! c = None →
  ∃ d', (main reliable threshold source dsts).2.1 !! i = Some d'
        ∧ d' !! c = None.
Proof.
  intros Hsys Hs Hd Hc.
  destruct (main_reliable_lookup threshold source dsts i d Hd) as [_ Hlook].
  exists (synced source d). split; [done|].
  rewrite synced_lookup. unfold synced_at. rewrite Hsys, Hs, Hc.
  by rewrite decide_True.
Qed.

Lemma empty_collection_not_created_witness :
  is_system "orders" = false
  ∧ ∃ d', (main reliable IN_MEMORY_ID_THRESHOLD source_empty [∅]).2.1 !! 0%nat
          = Some d'
          ∧ d' !! "orders" = None.
Proof.
  split; [reflexivity|].
  apply (empty_collection_not_created IN_MEMORY_ID_THRESHOLD source_empty [∅]
           "orders" 0%nat ∅); reflexivity.
Defined.

(** X6.  In a run in which no store call raises, when the source has no
    collection other than reserved ones -- an empty database, say -- every
    destination loses all its collections but the reserved ones. *)
Theorem empty_source_wipes_destination threshold source dsts i d :
  (∀ c, c ∈ dom source → is_system c = true) → dsts !! i = Some d →
  (main reliable threshold source dsts).2.1 !! i
  = Some (filter (λ kv, is_system kv.1 = true) d).
Proof.
  intros Hsrc Hd.
  destruct (main_reliable_lookup threshold source dsts i d Hd) as [_ ->].
  f_equal. apply map_eq. intros c. rewrite synced_lookup. unfold synced_at.
  destruct (is_system c) eqn:Hsys.
  - destruct (d !! c) as [docs|] eqn:Hc; symmetry.
    + by apply map_lookup_filter_Some.
    + apply map_lookup_filter_None. by left.
  - transitivity (@None (gmap Z string)).
    + destruct (source !! c) as [sdocs|] eqn:Hs; [|done].
      assert (is_system c = true); [|congruence].
      apply Hsrc, elem_of_dom. eauto.
    + symmetry. apply map_lookup_filter_None. right. intros docs _. simpl.
      by rewrite Hsys.
Qed.

Lemma empty_source_wipes_destination_witness :
  (∀ c, c ∈ dom (∅ : gmap string (gmap Z string)) → is_system c = true)
  ∧ (main reliable IN_MEMORY_ID_THRESHOLD ∅ [dest_stale]).2.1 !! 0%nat
    = Some (filter (λ kv, is_system kv.1 = true) dest_stale).
Proof.
  assert (H : ∀ c, c ∈ dom (∅ : gmap string (gmap Z string)) → is_system c = true).
  { intros c Hc. rewrite dom_empty_L in Hc. by apply not_elem_of_empty in Hc. }
  split; [exact H|].
  apply (empty_source_wipes_destination IN_MEMORY_ID_THRESHOLD ∅ [dest_stale]
           0%nat dest_stale); [exact H | reflexivity].
Defined.

(** X7.  What the upsert phase alone does to one destination collection
    when no store call raises.  A reserved collection, and a collection that
    the source does not have or has empty, is left as it is.  Any other
    collection exists afterwards and holds, at each id, the source's
    document if the source has one and the destination's old document
    otherwise. *)
Theorem upsert_effect threshold source w c :
  (is_system c = true ∨ coll_of source c = ∅ →
   dest (incremental_upsert reliable threshold source w).2 !! c = dest w !! c)
  ∧ (is_system c = false → coll_of source c ≠ ∅ →
     ∃ docs', dest (incremental_upsert reliable threshold source w).2 !! c = Some docs'
              ∧ ∀ id, docs' !! id
                      = match coll_of source c !! id with
                        | Some body => Some body
                        | None => coll_of (dest w) c !! id
                        end).
Proof.
  destruct w as [d tr]. change (dest (World d tr)) with d.
  rewrite (pure_run_dest _ _ _ _ _ (pure_incremental_upsert threshold source d)).
  rewrite upserted_lookup. unfold upserted_at.
  split.
  - intros [->|He]; [done|]. destruct (is_system c); [done|].
    destruct (source !! c) as [sdocs|] eqn:Hs; [|done].
    rewrite (coll_of_lookup _ _ _ Hs) in He. by rewrite decide_True.
  - intros -> Hne. destruct (source !! c) as [sdocs|] eqn:Hs.
    + rewrite (coll_of_lookup _ _ _ Hs) in *.
      rewrite decide_False by done. eexists. split; [done|]. intros id.
      rewrite lookup_union. by destruct (sdocs !! id), (coll_of d c !! id).
    + by rewrite (coll_of_absent _ _ Hs) in Hne.
Qed.

(** X8.  Whatever store calls raise, the upsert phase never looks at the
    destination: started on two different destinations with the same trace
    so far, it makes the same store calls, logs the same lines and ends the
    same way.  So every document of the source is written again in every
    run, whether or not the destination already holds it. *)
Theorem upsert_ignores_destination faults threshold source d1 d2 tr :
  (incremental_upsert faults threshold source (World d1 tr)).1
  = (incremental_upsert faults threshold source (World d2 tr)).1
  ∧ trace (incremental_upsert faults threshold source (World d1 tr)).2
    = trace (incremental_upsert faults threshold source (World d2 tr)).2.
Proof. by apply blind_incremental_upsert. Qed.

(** X9.  Whatever store calls raise, the reconciliation phase only removes:
    it makes no [replace_one] call, every collection it leaves was there
    before, and every document it leaves was there before with the same
    body. *)
Theorem reconcile_only_removes faults threshold source w :
  shrinks (dest w) (dest (reconcile_deletions faults threshold source w).2)
  ∧ ∃ evs, trace (reconcile_deletions faults threshold source w).2 = trace w ++ evs
           ∧ Forall no_write evs.
Proof. apply reconcile_deletions_shrinks. Qed.


(** X11.  Whatever store calls raise, once both listings have succeeded the
    drop of every destination collection that is not reserved and not in
    the source is attempted: a drop that raises does not keep the later
    drops from being tried. *)
Theorem stale_drops_all_attempted faults threshold source w :
  faults (trace w ++ [Log StartingReconciliation]) ListSource = false →
  faults (trace w ++ [Log StartingReconciliation; Call ListSource false]) ListDest
  = false →
  ∃ evs,
    trace (reconcile_deletions faults threshold source w).2 = trace w ++ evs
    ∧ ∀ c, c ∈ user_collections (dest w) ∖ user_collections source →
           ∃ b, Call (DropCollection c) b ∈ evs.
Proof.
  intros Hsrc Hdst. rewrite reconcile_deletions_step, Hsrc, Hdst.
  set (pre := [Log StartingReconciliation; Call ListSource false; Call ListDest false]).
  destruct (drop_loop_attempts faults
              (elements (user_collections (dest w) ∖ user_collections source))
              (World (dest w) (trace w ++ pre)))
    as (e_d & d3 & Hd & Hatt).
  unfold try_except, bind. rewrite Hd.
  destruct (for_each _ (reconcile_collection faults threshold source) _)
    as [o2 w4] eqn:Hp.
  apply reconcile_loop_segments in Hp as (e_p & He_p & _); [|apply NoDup_elements].
  simpl in He_p.
  assert (Hin : ∀ rest c,
            c ∈ user_collections (dest w) ∖ user_collections source →
            ∃ b, Call (DropCollection c) b ∈ pre ++ e_d ++ rest).
  { intros rest c Hc. apply elem_of_elements in Hc.
    destruct (Hatt c Hc) as [b Hb]. exists b.
    apply elem_of_app. right. apply elem_of_app. by left. }
  destruct o2 as [[]|]; simpl.
  - exists (pre ++ e_d ++ e_p). split; [by rewrite He_p, <- !app_assoc | apply Hin].
  - exists (pre ++ e_d ++ e_p ++ [Log MongoError]).
    split; [by rewrite He_p, <- !app_assoc | apply Hin].
Qed.

Lemma stale_drops_all_attempted_witness :
  drops_fail ([] ++ [Log StartingReconciliation]) ListSource = false
  ∧ drops_fail ([] ++ [Log StartingReconciliation; Call ListSource false]) ListDest
    = false
  ∧ ∃ evs,
      trace (reconcile_deletions drops_fail IN_MEMORY_ID_THRESHOLD source_orders
               (World dest_two_stale [])).2 = [] ++ evs
      ∧ ∀ c, c ∈ user_collections dest_two_stale ∖ user_collections source_orders →
             ∃ b, Call (DropCollection c) b ∈ evs.
Proof.
  split; [reflexivity|]. split; [reflexivity|].
  apply (stale_drops_all_attempted drops_fail IN_MEMORY_ID_THRESHOLD source_orders
           (World dest_two_stale [])); reflexivity.
Defined.


(** X13.  Whatever store calls raise, the upsert phase leaves every
    destination collection that is reserved, or that the source does not
    have or has empty, exactly as it was. *)
Theorem upsert_leaves_rest_alone faults threshold source w :
  rest_alone source (dest w) (dest (incremental_upsert faults threshold source w).2).
Proof.
  by destruct (copying_incremental_upsert faults threshold source (dest w) (trace w) w
                 (copying_start source w)) as [(H & _) _].
Qed.

(** X14.  Whatever store calls raise, the upsert phase writes source
    documents only: every [replace_one] call carries a document that the
    source holds under that id in the collection of that name, so every
    document of the destination afterwards was there before or is the
    source's. *)
Theorem upsert_writes_source_only faults threshold source w :
  no_invention source (dest w) (dest (incremental_upsert faults threshold source w).2)
  ∧ ∃ evs, trace (incremental_upsert faults threshold source w).2 = trace w ++ evs
           ∧ Forall (from_source source) evs.
Proof.
  by destruct (copying_incremental_upsert faults threshold source (dest w) (trace w) w
                 (copying_start source w)) as [(_ & H) _].
Qed.

(** X15.  Whatever store calls raise, and however the run ends, a run
    invents nothing: every document of a final destination database was in
    that destination before the run or is in the source, under the same id
    in the collection of the same name. *)
Theorem run_invents_nothing faults threshold source dsts :
  Forall2 (no_invention source) dsts (main faults threshold source dsts).2.1.
Proof.
  unfold main. pose proof (main_loop_no_invention faults threshold source dsts []) as H.
  by destruct (main_loop _ _ _ _ _) as [[[]|] [dsts' tr]].
Qed.

(** X16.  Whatever store calls raise, when the upsert of a collection logs
    its "Upserted n" line, the collection was processed without error: the
    line is the last entry, it comes after one [replace_one] call that
    returned for each document of the source collection, and n is the
    number of those documents. *)
Theorem upserted_line_counts_writes faults threshold source c w n c' evs :
  trace (upsert_collection faults threshold source c w).2 = trace w ++ evs →
  Log (Upserted n c') ∈ evs →
  evs = [Call (CountSource c) false;
         Log (Processing c (Z.of_nat (size (coll_of source c))));
         Call (FindSource c) false]
        ++ writes_of c (map_to_list (coll_of source c))
        ++ [Log (Upserted (size (coll_of source c)) c)].
Proof. apply upsert_collection_trace. Qed.

Lemma upserted_line_counts_writes_witness :
  trace (upsert_collection reliable IN_MEMORY_ID_THRESHOLD source_orders "orders"
           (World ∅ [])).2
  = [] ++ [Call (CountSource "orders") false; Log (Processing "orders" 3);
           Call (FindSource "orders") false;
           Call (ReplaceOne "orders" 3 "three") false;
           Call (ReplaceOne "orders" 2 "two") false;
           Call (ReplaceOne "orders" 1 "one") false;
           Log (Upserted 3 "orders")]
  ∧ [Call (CountSource "orders") false; Log (Processing "orders" 3);
     Call (FindSource "orders") false;
     Call (ReplaceOne "orders" 3 "three") false;
     Call (ReplaceOne "orders" 2 "two") false;
     Call (ReplaceOne "orders" 1 "one") false;
     Log (Upserted 3 "orders")]
    = [Call (CountSource "orders") false;
       Log (Processing "orders" (Z.of_nat (size (coll_of source_orders "orders"))));
       Call (FindSource "orders") false]
      ++ writes_of "orders" (map_to_list (coll_of source_orders "orders"))
      ++ [Log (Upserted (size (coll_of source_orders "orders")) "orders")].
Proof.
  assert (H : trace (upsert_collection reliable IN_MEMORY_ID_THRESHOLD source_orders
                       "orders" (World ∅ [])).2
              = [] ++ [Call (CountSource "orders") false; Log (Processing "orders" 3);
                       Call (FindSource "orders") false;
                       Call (ReplaceOne "orders" 3 "three") false;
                       Call (ReplaceOne "orders" 2 "two") false;
                       Call (ReplaceOne "orders" 1 "one") false;
                       Log (Upserted 3 "orders")])
    by (vm_compute; reflexivity).
  split; [exact H|].
  apply (upserted_line_counts_writes reliable IN_MEMORY_ID_THRESHOLD source_orders
           "orders" (World ∅ []) 3%nat "orders" _ H).
  do 6 apply list_elem_of_further. apply list_elem_of_here.
Defined.

(** X17.  Whatever store calls raise, when the reconciliation of a
    collection pair logs its "Deleted n" line, the pair was reconciled
    without error and n is the number of [delete_one] calls made for the
    pair, all of which returned. *)
Theorem deleted_line_counts_deletes faults threshold source c w n c' evs :
  trace (reconcile_collection faults threshold source c w).2 = trace w ++ evs →
  Log (Deleted n c') ∈ evs →
  (reconcile_collection faults threshold source c w).1 = Done tt
  ∧ c' = c ∧ n = deletes_done evs.
Proof. apply reconcile_collection_deleted. Qed.

Lemma deleted_line_counts_deletes_witness :
  trace (reconcile_collection reliable IN_MEMORY_ID_THRESHOLD source_ab "a"
           (World dest_ab [])).2
  = [] ++ [Call (CountSource "a") false; Call (CountDest "a") false;
           Log (Reconciling "a" 1 2); Call (FindSourceIds "a") false;
           Call (FindDestIds "a") false; Call (DeleteOne "a" 2) false;
           Log (Deleted 1 "a")]
  ∧ (reconcile_collection reliable IN_MEMORY_ID_THRESHOLD source_ab "a"
       (World dest_ab [])).1 = Done tt
  ∧ "a" = "a"
  ∧ 1%nat = deletes_done
              [Call (CountSource "a") false; Call (CountDest "a") false;
               Log (Reconciling "a" 1 2); Call (FindSourceIds "a") false;
               Call (FindDestIds "a") false; Call (DeleteOne "a" 2) false;
               Log (Deleted 1 "a")].
Proof.
  assert (H : trace (reconcile_collection reliable IN_MEMORY_ID_THRESHOLD source_ab
                       "a" (World dest_ab [])).2
              = [] ++ [Call (CountSource "a") false; Call (CountDest "a") false;
                       Log (Reconciling "a" 1 2); Call (FindSourceIds "a") false;
                       Call (FindDestIds "a") false; Call (DeleteOne "a" 2) false;
                       Log (Deleted 1 "a")])
    by (vm_compute; reflexivity).
  split; [exact H|].
  apply (deleted_line_counts_deletes reliable IN_MEMORY_ID_THRESHOLD source_ab
           "a" (World dest_ab []) 1%nat "a" _ H).
  do 6 apply list_elem_of_further. apply list_elem_of_here.
Defined.
